(** * untangle: the LPAK bundle parser

    A shallow embedding of [LPAKParser] from [untangle.py] and the
    properties of its table walk: endianness detection, the version gate,
    the entry-table loop, the running name-table cursor and the failure
    behaviour of short reads. *)

From Stdlib Require Import ZArith List Lia Bool String Ascii.
From Stdlib Require Import Strings.Byte.
Import ListNotations.
Local Open Scope Z_scope.

(** ** Bytes and Python values *)

Definition bytes := list byte.

(** A Python [str]: its sequence of Unicode code points. *)
Definition str := list Z.

(** The literal [b"..."]. *)
Definition b (lit : string) : bytes := list_byte_of_string lit.

(** A [str] literal made of ASCII characters. *)
Definition text (lit : string) : str :=
  map (fun x => Z.of_N (Byte.to_N x)) (list_byte_of_string lit).

Definition byte_val (x : byte) : Z := Z.of_N (Byte.to_N x).

Definition len {A} (l : list A) : Z := Z.of_nat (List.length l).

Definition bytes_eqb (x y : bytes) : bool :=
  if list_eq_dec Byte.byte_eq_dec x y then true else false.

(** ** Exceptions

    The parser raises [ValueError] twice, with distinct messages;
    [struct.unpack_from] raises [struct.error] on a buffer that is too
    small, and [bytes.decode] raises [UnicodeDecodeError]. *)

Inductive exn : Type :=
| ValueError (msg : string)
| struct_error
| UnicodeDecodeError.

Definition UnrecognizedFormatError : exn := ValueError "Not a LPAK file".
Definition UnsupportedVersionError : exn :=
  ValueError "Post-Full Throttle file format no supported".
Definition TruncatedInputError : exn := struct_error.

(** ** The binary file object

    [content] is what the file holds and [tell] the current position.
    [seek] past the end is allowed; [read] returns what is there, possibly
    fewer bytes than asked for. *)

Record BinaryIO : Type := mkIO { content : bytes; tell : Z }.

Fixpoint drop (n : Z) (l : bytes) {struct l} : bytes :=
  match l with
  | [] => []
  | _ :: r => if n <=? 0 then l else drop (n - 1) r
  end.

Fixpoint take (n : Z) (l : bytes) {struct l} : bytes :=
  match l with
  | [] => []
  | x :: r => if n <=? 0 then [] else x :: take (n - 1) r
  end.

(** The bytes a [read(n)] at position [pos] returns. *)
Definition read_at (src : bytes) (pos n : Z) : bytes := take n (drop pos src).

(** The bytes left in the file from position [pos] on. *)
Definition remaining (src : bytes) (pos : Z) : Z := Z.max 0 (len src - pos).

Definition open (src : bytes) : BinaryIO := mkIO src 0.

Definition io_seek (pos : Z) (f : BinaryIO) : BinaryIO :=
  mkIO (content f) pos.

Definition io_read (n : Z) (f : BinaryIO) : bytes * BinaryIO :=
  let bs := read_at (content f) (tell f) n in
  (bs, mkIO (content f) (tell f + len bs)).

(** ** The [struct] module, for the formats the parser uses

    With an explicit byte order ([<] or [>]) the sizes are the standard
    ones and there is no padding. *)

Inductive byteorder : Type := LittleEndian | BigEndian.

Inductive fmt_code : Type :=
| fmt_H            (* unsigned short, 2 bytes *)
| fmt_I            (* unsigned int, 4 bytes *)
| fmt_s (n : nat). (* char[n] *)

Definition struct_format := list fmt_code.

Definition code_size (c : fmt_code) : nat :=
  match c with
  | fmt_H => 2
  | fmt_I => 4
  | fmt_s n => n
  end.

Fixpoint calcsize (fmt : struct_format) : nat :=
  match fmt with
  | [] => 0
  | c :: r => code_size c + calcsize r
  end.

Definition code_type (c : fmt_code) : Type :=
  match c with
  | fmt_H | fmt_I => Z
  | fmt_s _ => bytes
  end.

(** The tuple [unpack_from] returns for a format. *)
Fixpoint Tuple (fmt : struct_format) : Type :=
  match fmt with
  | [] => unit
  | c :: r => (code_type c * Tuple r)%type
  end.

Definition from_bytes_big (bs : bytes) : Z :=
  fold_left (fun acc x => acc * 256 + byte_val x) bs 0.

Definition int_from_bytes (e : byteorder) (bs : bytes) : Z :=
  match e with
  | BigEndian => from_bytes_big bs
  | LittleEndian => from_bytes_big (rev bs)
  end.

Definition decode_code (e : byteorder) (c : fmt_code) (bs : bytes)
  : code_type c :=
  match c with
  | fmt_H => int_from_bytes e bs
  | fmt_I => int_from_bytes e bs
  | fmt_s _ => bs
  end.

Fixpoint decode_fields (e : byteorder) (fmt : struct_format) (buf : bytes)
  : Tuple fmt :=
  match fmt with
  | [] => tt
  | c :: r =>
      (decode_code e c (firstn (code_size c) buf),
       decode_fields e r (skipn (code_size c) buf))
  end.

Definition unpack_from (e : byteorder) (fmt : struct_format) (buf : bytes)
  : exn + Tuple fmt :=
  if (List.length buf <? calcsize fmt)%nat
  then inl struct_error
  else inr (decode_fields e fmt buf).

(** ** [bytes.split(b"\0")[0]] and [bytes.decode()] *)

Fixpoint split0 (bs : bytes) : bytes :=
  match bs with
  | [] => []
  | x :: r => if Byte.eqb x x00 then [] else x :: split0 r
  end.

Definition is_cont (x : Z) : bool := (0x80 <=? x) && (x <=? 0xBF).

Definition in_range (lo hi x : Z) : bool := (lo <=? x) && (x <=? hi).

(** Strict UTF-8: shortest forms only, no surrogates, nothing above
    U+10FFFF. [None] stands for [UnicodeDecodeError]. *)
Fixpoint utf8_decode (bs : bytes) : option str :=
  match bs with
  | [] => Some []
  | b0 :: r0 =>
      let x0 := byte_val b0 in
      if x0 <? 0x80 then option_map (cons x0) (utf8_decode r0)
      else
        match r0 with
        | [] => None
        | b1 :: r1 =>
            let x1 := byte_val b1 in
            if in_range 0xC2 0xDF x0 then
              if is_cont x1
              then option_map (cons ((x0 - 0xC0) * 64 + (x1 - 0x80)))
                              (utf8_decode r1)
              else None
            else
              match r1 with
              | [] => None
              | b2 :: r2 =>
                  let x2 := byte_val b2 in
                  if in_range 0xE0 0xEF x0 then
                    if in_range (if x0 =? 0xE0 then 0xA0 else 0x80)
                                (if x0 =? 0xED then 0x9F else 0xBF) x1
                       && is_cont x2
                    then option_map
                           (cons ((x0 - 0xE0) * 4096 + (x1 - 0x80) * 64
                                  + (x2 - 0x80)))
                           (utf8_decode r2)
                    else None
                  else
                    match r2 with
                    | [] => None
                    | b3 :: r3 =>
                        let x3 := byte_val b3 in
                        if in_range 0xF0 0xF4 x0
                           && in_range (if x0 =? 0xF0 then 0x90 else 0x80)
                                       (if x0 =? 0xF4 then 0x8F else 0xBF) x1
                           && is_cont x2 && is_cont x3
                        then option_map
                               (cons ((x0 - 0xF0) * 262144
                                      + (x1 - 0x80) * 4096
                                      + (x2 - 0x80) * 64 + (x3 - 0x80)))
                               (utf8_decode r3)
                        else None
                    end
              end
        end
  end.

Definition decode (bs : bytes) : exn + str :=
  match utf8_decode bs with
  | Some t => inr t
  | None => inl UnicodeDecodeError
  end.

(** ** The parser object and its methods

    [FileObject] is the dataclass; [LPAKParser] holds the attributes of
    [self]. A method is a computation over [self] that either raises or
    returns a value and the updated object. *)

Record FileObject : Type := mkFileObject {
  offset : Z;
  size : Z;
  compressed_size : Z;
  compressed : bool;
  filename : str
}.

Record LPAKParser : Type := mkParser {
  file : BinaryIO;
  endianness : byteorder;
  file_objects : list FileObject
}.

Definition M (A : Type) : Type := LPAKParser -> exn + (A * LPAKParser).

Definition ret {A} (a : A) : M A := fun self => inr (a, self).

Definition bind {A B} (m : M A) (k : A -> M B) : M B :=
  fun self =>
    match m self with
    | inl e => inl e
    | inr (a, self') => k a self'
    end.

Definition lift {A} (r : exn + A) : M A :=
  fun self =>
    match r with
    | inl e => inl e
    | inr a => inr (a, self)
    end.

Definition raise {A} (e : exn) : M A := fun _ => inl e.

Declare Scope py_scope.
Delimit Scope py_scope with py.
Notation "x <- m ;; k" := (bind m (fun x => k))
  (at level 61, m at next level, right associativity) : py_scope.
Notation "' p <- m ;; k" := (bind m (fun x => match x with p => k end))
  (at level 61, p pattern, m at next level, right associativity) : py_scope.
Notation "m ;; k" := (bind m (fun _ => k))
  (at level 61, right associativity) : py_scope.
Local Open Scope py_scope.

(** [self.file.seek(pos)] *)
Definition file_seek (pos : Z) : M unit :=
  fun self =>
    inr (tt, mkParser (io_seek pos (file self)) (endianness self)
                      (file_objects self)).

(** [self.file.read(n)] *)
Definition file_read (n : Z) : M bytes :=
  fun self =>
    let (bs, f) := io_read n (file self) in
    inr (bs, mkParser f (endianness self) (file_objects self)).

(** [self.file_objects.append(o)] *)
Definition append (o : FileObject) : M unit :=
  fun self =>
    inr (tt, mkParser (file self) (endianness self)
                      (file_objects self ++ [o])).

(** [LPAKParser.unpack] *)
Definition unpack (fmt : struct_format) : M (Tuple fmt) :=
  fun self =>
    (let size := calcsize fmt in
     buf <- file_read (Z.of_nat size) ;;
     lift (unpack_from (endianness self) fmt buf)) self.

(** [for i in range(n)], threading the loop's local state. *)
Fixpoint for_from {S} (i : Z) (n : nat) (body : Z -> S -> M S) (s : S)
  : M S :=
  match n with
  | O => ret s
  | Datatypes.S n' => s' <- body i s ;; for_from (i + 1) n' body s'
  end.

Definition for_range {S} (n : Z) (body : Z -> S -> M S) (s : S) : M S :=
  for_from 0 (Z.to_nat n) body s.

Definition size_of_file_record : Z := 20.

(** One iteration of the loop of [parse_files_v1]; the loop's state is
    [current_name_offset]. *)
Definition parse_entry (start_of_file_entries start_of_file_names
                        start_of_data : Z) (i current_name_offset : Z)
  : M Z :=
  file_seek (start_of_file_entries + i * size_of_file_record) ;;
  '(offset, (name_offset, (size, (compressed_size, (compressed, _)))))
     <- unpack (repeat fmt_I 5) ;;
  file_seek (start_of_file_names + current_name_offset) ;;
  '(raw, _) <- unpack [fmt_s 255] ;;
  let file_name := split0 raw in
  let current_name_offset := current_name_offset + len file_name + 1 in
  decoded <- lift (decode file_name) ;;
  append (mkFileObject (offset + start_of_data) size compressed_size
                       (negb (compressed =? 0)) decoded) ;;
  ret current_name_offset.

(** [LPAKParser.parse_files_v1] *)
Definition parse_files_v1 : M unit :=
  file_seek 12 ;;
  '(start_of_file_entries, (start_of_file_names, (start_of_data,
     (_, (size_of_file_entries, (_, (_, _)))))))
     <- unpack (repeat fmt_I 7) ;;
  let num_files := size_of_file_entries / size_of_file_record in
  file_seek start_of_file_entries ;;
  _ <- for_range num_files
         (parse_entry start_of_file_entries start_of_file_names
                      start_of_data) 0 ;;
  ret tt.

(** [LPAKParser.parse_files] *)
Definition parse_files : M unit :=
  file_seek 6 ;;
  '(version, _) <- unpack [fmt_H] ;;
  if version >=? 16320
  then raise (ValueError "Post-Full Throttle file format no supported")
  else parse_files_v1.

(** The object a constructor call evaluates to once its last method
    call returns. *)
Definition constructed (r : exn + (unit * LPAKParser)) : exn + LPAKParser :=
  match r with
  | inl e => inl e
  | inr (_, self) => inr self
  end.

(** [LPAKParser.__init__] *)
Definition __init__ (f : BinaryIO) : exn + LPAKParser :=
  let (magic, f) := io_read 4 f in
  match unpack_from LittleEndian [fmt_s 4] magic with
  | inl e => inl e
  | inr (header, _) =>
      match
        (if bytes_eqb header (b "LPAK") then inr BigEndian
         else if bytes_eqb header (b "KAPL") then inr LittleEndian
         else inl (ValueError "Not a LPAK file"))
      with
      | inl e => inl e
      | inr order => constructed (parse_files (mkParser f order []))
      end
  end.

(** What a caller sees of [LPAKParser(open(path, 'rb'))]: the exception,
    or the list [parser.file_objects]. *)
Definition parse_bundle (src : bytes) : exn + list FileObject :=
  match __init__ (open src) with
  | inl e => inl e
  | inr self => inr (file_objects self)
  end.

(** ** Bundles as the format describes them

    Used to state properties over encodings of one logical content and
    to build concrete inputs. The parser itself never sees these. *)

Definition byte_of (v : Z) : byte :=
  match Byte.of_N (Z.to_N v) with
  | Some x => x
  | None => x00
  end.

(** [n] bytes of [v], most significant first. *)
Fixpoint to_bytes_big (n : nat) (v : Z) : bytes :=
  match n with
  | O => []
  | S k => to_bytes_big k (v / 256) ++ [byte_of (v mod 256)]
  end.

Definition int_to_bytes (e : byteorder) (n : nat) (v : Z) : bytes :=
  match e with
  | BigEndian => to_bytes_big n v
  | LittleEndian => rev (to_bytes_big n v)
  end.

Definition pack_I (e : byteorder) (vs : list Z) : bytes :=
  List.concat (map (int_to_bytes e 4) vs).

Record Entry : Type := mkEntry {
  entry_offset : Z;
  entry_name_offset : Z;
  entry_size : Z;
  entry_compressed_size : Z;
  entry_compressed : Z
}.

Definition entry_fields (x : Entry) : list Z :=
  [entry_offset x; entry_name_offset x; entry_size x;
   entry_compressed_size x; entry_compressed x].

(** The logical content of a bundle: the version, the bytes the format
    leaves unspecified, the unused header fields, the entry records, and
    everything after the entry table (name table, then data region) as
    raw bytes. *)
Record Bundle : Type := mkBundle {
  bytes_4_5 : bytes;
  version : Z;
  bytes_8_11 : bytes;
  unused_3 : Z;
  unused_5 : Z;
  unused_6 : Z;
  gap : bytes;
  entries : list Entry;
  name_table : bytes;
  data_region : bytes
}.

Definition magic_of (e : byteorder) : bytes :=
  match e with
  | BigEndian => b "LPAK"
  | LittleEndian => b "KAPL"
  end.

Definition start_of_file_entries (x : Bundle) : Z := 40 + len (gap x).
Definition size_of_file_entries (x : Bundle) : Z := 20 * len (entries x).
Definition start_of_file_names (x : Bundle) : Z :=
  start_of_file_entries x + size_of_file_entries x.
Definition start_of_data (x : Bundle) : Z :=
  start_of_file_names x + len (name_table x).

(** The first 40 bytes: tag, two bytes, version, four bytes, seven
    fields. *)
Definition header_bytes (e : byteorder) (b45 : bytes) (v : Z)
                        (b811 : bytes) (fields : list Z) : bytes :=
  magic_of e ++ b45 ++ int_to_bytes e 2 v ++ b811 ++ pack_I e fields.

Definition encode_header (e : byteorder) (x : Bundle) : bytes :=
  header_bytes e (bytes_4_5 x) (version x) (bytes_8_11 x)
    [start_of_file_entries x; start_of_file_names x;
     start_of_data x; unused_3 x; size_of_file_entries x;
     unused_5 x; unused_6 x].

Definition encode_entries (e : byteorder) (es : list Entry) : bytes :=
  List.concat (map (fun x => pack_I e (entry_fields x)) es).

(** The file of a bundle in byte order [e]. *)
Definition encode (e : byteorder) (x : Bundle) : bytes :=
  encode_header e x ++ gap x ++ encode_entries e (entries x)
    ++ name_table x ++ data_region x.

Definition u16 (v : Z) : Prop := 0 <= v < 65536.
Definition u32 (v : Z) : Prop := 0 <= v < 4294967296.

Definition wf_entry (x : Entry) : Prop := Forall u32 (entry_fields x).

Record wf_bundle (x : Bundle) : Prop := mk_wf {
  wf_4_5 : List.length (bytes_4_5 x) = 2%nat;
  wf_8_11 : List.length (bytes_8_11 x) = 4%nat;
  wf_version : u16 (version x);
  wf_unused : u32 (unused_3 x) /\ u32 (unused_5 x) /\ u32 (unused_6 x);
  wf_entries : Forall wf_entry (entries x);
  wf_layout : u32 (start_of_data x)
}.

(** A small bundle used in the examples: three files whose names are
    [a.txt], [bb.txt] and [c], zero padding so that every 255-byte name
    read is inside the file, then the data. *)
Definition zeros (n : nat) : bytes := repeat x00 n.

(** A file whose [size_of_file_entries] is 39: one whole record and 19
    bytes more. *)
Definition odd_sized : bytes :=
  header_bytes BigEndian (zeros 2) 1 (zeros 4) [40; 60; 60; 0; 39; 0; 0]
    ++ pack_I BigEndian [5; 0; 1; 1; 0] ++ zeros 255.

Definition three_names (x0 x1 x2 : Entry) : Bundle :=
  mkBundle (zeros 2) 1 (zeros 4) 0 0 0 [] [x0; x1; x2]
    (b "a.txt" ++ [x00] ++ b "bb.txt" ++ [x00] ++ b "c" ++ [x00])
    (zeros 270).

Definition three_files (no0 no1 no2 : Z) : Bundle :=
  three_names (mkEntry 0 no0 3 3 0) (mkEntry 3 no1 4 4 0)
              (mkEntry 7 no2 2 2 1).

(** ** A functional reading of the walk

    Every read of the parser follows a seek, so a read is determined by
    the file's content and the position sought. [parse_spec] is the parser
    with the file object and [self] taken out; [parse_bundle_spec] below
    shows that the two agree. *)

Definition unpack_at (e : byteorder) (src : bytes) (pos : Z)
                     (fmt : struct_format) : exn + Tuple fmt :=
  unpack_from e fmt (read_at src pos (Z.of_nat (calcsize fmt))).

Definition detect (header : bytes) : exn + byteorder :=
  if bytes_eqb header (b "LPAK") then inr BigEndian
  else if bytes_eqb header (b "KAPL") then inr LittleEndian
  else inl (ValueError "Not a LPAK file").

(** The header fields the walk uses. *)
Record Header : Type := mkHeader {
  h_entries : Z;   (* start_of_file_entries *)
  h_names : Z;     (* start_of_file_names *)
  h_data : Z;      (* start_of_data *)
  h_size : Z       (* size_of_file_entries *)
}.

Definition header_at (e : byteorder) (src : bytes) : exn + Header :=
  match unpack_at e src 12 (repeat fmt_I 7) with
  | inl x => inl x
  | inr (sfe, (sfn, (sod, (_, (sofe, _))))) =>
      inr (mkHeader sfe sfn sod sofe)
  end.

Definition num_files (h : Header) : Z := h_size h / size_of_file_record.

(** The bytes of the name at cursor [cur] of the name table that starts
    at [sfn]: what a 255-byte read there holds before its first null
    byte. *)
Definition name_bytes (src : bytes) (sfn cur : Z) : bytes :=
  split0 (read_at src (sfn + cur) 255).

(** The cursor after the name at [cur]: its length plus one for the
    terminator. *)
Definition next_name (src : bytes) (sfn cur : Z) : Z :=
  cur + len (name_bytes src sfn cur) + 1.

(** The running cursor before entry [k], as the name table alone
    determines it. *)
Definition name_cursor (src : bytes) (sfn : Z) (k : nat) : Z :=
  Nat.iter k (next_name src sfn) 0.

Definition filenames (r : exn + list FileObject) : exn + list str :=
  match r with
  | inl x => inl x
  | inr rs => inr (map filename rs)
  end.

Section Walk.
Variables (e : byteorder) (src : bytes) (h : Header).

(** The bytes of the name that starts at cursor [cur] of the name
    table. *)
Definition name_read (cur : Z) : exn + Tuple [fmt_s 255] :=
  unpack_at e src (h_names h + cur) [fmt_s 255].

Definition entry_read (i : Z) : exn + Tuple (repeat fmt_I 5) :=
  unpack_at e src (h_entries h + i * size_of_file_record)
            (repeat fmt_I 5).

Definition entry_at (i cur : Z) : exn + (FileObject * Z) :=
  match entry_read i with
  | inl x => inl x
  | inr (o, (_, (s, (cs, (c, _))))) =>
      match name_read cur with
      | inl x => inl x
      | inr (raw, _) =>
          match decode (split0 raw) with
          | inl x => inl x
          | inr nm =>
              inr (mkFileObject (o + h_data h) s cs (negb (c =? 0)) nm,
                   cur + len (split0 raw) + 1)
          end
      end
  end.

Fixpoint walk (i : Z) (n : nat) (cur : Z) : exn + list FileObject :=
  match n with
  | O => inr []
  | S n' =>
      match entry_at i cur with
      | inl x => inl x
      | inr (o, cur') =>
          match walk (i + 1) n' cur' with
          | inl x => inl x
          | inr rs => inr (o :: rs)
          end
      end
  end.

End Walk.

Definition version_at (e : byteorder) (src : bytes) : exn + Z :=
  match unpack_at e src 6 [fmt_H] with
  | inl x => inl x
  | inr (v, _) => inr v
  end.

Definition parse_v1_spec (e : byteorder) (src : bytes)
  : exn + list FileObject :=
  match header_at e src with
  | inl x => inl x
  | inr h => walk e src h 0 (Z.to_nat (num_files h)) 0
  end.

Definition parse_spec (src : bytes) : exn + list FileObject :=
  match unpack_from LittleEndian [fmt_s 4] (read_at src 0 4) with
  | inl x => inl x
  | inr (header, _) =>
      match detect header with
      | inl x => inl x
      | inr e =>
          match version_at e src with
          | inl x => inl x
          | inr v =>
              if v >=? 16320 then inl UnsupportedVersionError
              else parse_v1_spec e src
          end
      end
  end.

(** The header fields of a bundle, as its file states them. *)
Definition header_of (x : Bundle) : Header :=
  mkHeader (start_of_file_entries x) (start_of_file_names x)
           (start_of_data x) (size_of_file_entries x).

(** Everything before the loop: tag, version gate and header fields. *)
Definition read_header (src : bytes) : exn + (byteorder * Header) :=
  match unpack_from LittleEndian [fmt_s 4] (read_at src 0 4) with
  | inl x => inl x
  | inr (header, _) =>
      match detect header with
      | inl x => inl x
      | inr e =>
          match version_at e src with
          | inl x => inl x
          | inr v =>
              if v >=? 16320 then inl UnsupportedVersionError
              else
                match header_at e src with
                | inl x => inl x
                | inr h => inr (e, h)
                end
          end
      end
  end.

(** The loop gets to iteration [k]: the [k] iterations before it
    complete. *)
Definition reaches (e : byteorder) (src : bytes) (h : Header) (k : nat)
  : bool :=
  match walk e src h 0 k 0 with
  | inl _ => false
  | inr _ => true
  end.

(** More concrete files for the examples. Each has its name table right
    after the header and its entry table last. *)
Definition names_first (names : bytes) (es : list (list Z)) : bytes :=
  let sfe := 40 + len names in
  header_bytes BigEndian (zeros 2) 1 (zeros 4)
    [sfe; 40; sfe + 20 * len es; 0; 20 * len es; 0; 0]
  ++ names ++ List.concat (map (pack_I BigEndian) es).

(** One file whose data would start a million bytes into a file of 315
    bytes. *)
Definition far_offset : bytes :=
  names_first (b "a" ++ zeros 254) [[1000000; 0; 1; 1; 0]].

(** One entry whose name [a] and its terminator are the last two bytes
    of the file. *)
Definition name_at_end : bytes :=
  header_bytes BigEndian (zeros 2) 1 (zeros 4) [40; 60; 62; 0; 20; 0; 0]
    ++ pack_I BigEndian [0; 0; 0; 0; 0] ++ b "a" ++ [x00].

(** Five entries announced, the file cut ten bytes into the fifth. *)
Definition cut_in_fifth : bytes :=
  firstn 395
    (names_first (b "a" ++ [x00] ++ b "b" ++ [x00] ++ b "c" ++ [x00]
                    ++ b "d" ++ [x00] ++ b "e" ++ [x00] ++ zeros 255)
       [[0; 0; 1; 1; 0]; [1; 2; 1; 1; 0]; [2; 4; 1; 1; 0];
        [3; 6; 1; 1; 0]; [4; 8; 1; 1; 0]]).

(** One entry whose name is the single byte [0xFF]. *)
Definition bad_name : bytes :=
  names_first ([xff] ++ zeros 254) [[0; 0; 1; 1; 0]].

(** The file of [three_files 0 6 13] in each byte order, and the records
    it holds. *)
Definition three_files_be : bytes := encode BigEndian (three_files 0 6 13).
Definition three_files_le : bytes :=
  encode LittleEndian (three_files 0 6 13).

Definition three_records : list FileObject :=
  [mkFileObject 115 3 3 false (text "a.txt");
   mkFileObject 118 4 4 false (text "bb.txt");
   mkFileObject 122 2 2 true (text "c")].

(** * The callers of the parser

    [filter_file_objects], [action_list] and [action_extract]. The glob
    matcher [fnmatch.fnmatchcase] and the file system behind [pathlib]
    are not part of the program: the matcher is a parameter, and the
    file system is a state changed by the calls the program makes, each
    of which may raise. *)

(** [filter_file_objects]; [include] is [None] or a pattern. *)
Definition filter_file_objects (fnmatchcase : str -> str -> bool)
                               (file_objects : list FileObject)
                               (include : option str) : list FileObject :=
  match include with
  | None => file_objects
  | Some pattern =>
      filter (fun f => fnmatchcase (filename f) pattern) file_objects
  end.

(** [action_list] on a file that holds [src]: the exception of the
    parser, or the lines printed, one [print] per selected object. *)
Definition action_list (fnmatchcase : str -> str -> bool) (src : bytes)
                       (include : option str) : exn + list str :=
  match __init__ (open src) with
  | inl e => inl e
  | inr parser =>
      inr (fold_left (fun stdout f => stdout ++ [filename f])
                     (filter_file_objects fnmatchcase
                        (file_objects parser) include)
                     [])
  end.

(** The calls [action_extract] makes on the path of an object. *)
Inductive fs_op : Type :=
| MkdirParent (output : str)
    (* output.parent.mkdir(mode=0o755, parents=True, exist_ok=True) *)
| Touch (output : str) (exist_ok : bool)
    (* output.touch(mode=0o644, exist_ok=exist_ok) *)
| WriteBytes (output : str) (data : bytes).
    (* output.write_bytes(data) *)

(** The line printed for a compressed object. *)
Definition skip_message (name : str) : str :=
  name ++ text ": compressed file not supported, skipping".

(** What a run of [action_extract] leaves: the file system, the lines
    printed, and the exception if one was raised, the parser's or the
    file system's. *)
Record Outcome (FS E : Type) : Type := mkOutcome {
  fs_after : FS;
  stdout : list str;
  raised : option (exn + E)
}.
Arguments mkOutcome {FS E}.
Arguments fs_after {FS E}.
Arguments stdout {FS E}.
Arguments raised {FS E}.

Section Extract.
Variables (FS E : Type).
(** A call on the file system changes it and may raise. *)
Variable perform : fs_op -> FS -> FS * option E.

(** The loop of [action_extract] over the selected objects; [lpak] is
    the open bundle, shared with the parser. *)
Fixpoint extract_loop (overwrite : bool) (selected : list FileObject)
                      (lpak : BinaryIO) (fs : FS) (out : list str)
  : Outcome FS E :=
  match selected with
  | [] => mkOutcome fs out None
  | f :: rest =>
      if compressed f then
        extract_loop overwrite rest lpak fs
                     (out ++ [skip_message (filename f)])
      else
        let output := filename f in
        match perform (MkdirParent output) fs with
        | (fs, Some err) => mkOutcome fs out (Some (inr err))
        | (fs, None) =>
            match perform (Touch output overwrite) fs with
            | (fs, Some err) => mkOutcome fs out (Some (inr err))
            | (fs, None) =>
                let lpak := io_seek (offset f) lpak in
                let (data, lpak) := io_read (size f) lpak in
                match perform (WriteBytes output data) fs with
                | (fs, Some err) => mkOutcome fs out (Some (inr err))
                | (fs, None) => extract_loop overwrite rest lpak fs out
                end
            end
        end
  end.

(** [action_extract] on a file that holds [src], from file system [fs]. *)
Definition action_extract (fnmatchcase : str -> str -> bool) (src : bytes)
                          (include : option str) (overwrite : bool)
                          (fs : FS) : Outcome FS E :=
  match __init__ (open src) with
  | inl e => mkOutcome fs [] (Some (inl e))
  | inr parser =>
      extract_loop overwrite
        (filter_file_objects fnmatchcase (file_objects parser) include)
        (file parser) fs []
  end.

(** Calls made one after the other, up to the first that raises. *)
Fixpoint run_ops (ops : list fs_op) (fs : FS) : FS * option E :=
  match ops with
  | [] => (fs, None)
  | op :: rest =>
      match perform op fs with
      | (fs, Some err) => (fs, Some err)
      | (fs, None) => run_ops rest fs
      end
  end.
End Extract.
Arguments extract_loop {FS E}.
Arguments action_extract {FS E}.
Arguments run_ops {FS E}.

(** The calls an object stands for: none when it is compressed,
    otherwise the three calls, writing the bytes of the bundle from the
    object's offset on, as many as its size. *)
Definition record_ops (src : bytes) (overwrite : bool) (f : FileObject)
  : list fs_op :=
  if compressed f then []
  else [MkdirParent (filename f); Touch (filename f) overwrite;
        WriteBytes (filename f) (read_at src (offset f) (size f))].

(** A file system that only records the calls made on it; none raises. *)
Definition record_call (op : fs_op) (log : list fs_op)
  : list fs_op * option Empty_set :=
  (log ++ [op], None).

(** The paths written, in the calls recorded. *)
Definition written_paths (log : list fs_op) : list str :=
  flat_map (fun op => match op with
                      | WriteBytes output _ => [output]
                      | _ => []
                      end) log.

(** A matcher for the examples: the pattern matches the name equal to
    it. *)
Definition same_name (name pattern : str) : bool :=
  if list_eq_dec Z.eq_dec name pattern then true else false.

(** [l] with some elements left out, the others in their order. *)
Inductive subseq {A : Type} : list A -> list A -> Prop :=
| subseq_nil : subseq [] []
| subseq_skip x l l' : subseq l l' -> subseq l (x :: l')
| subseq_keep x l l' : subseq l l' -> subseq (x :: l) (x :: l').

(** ** More on bundles *)

(** A Unicode scalar value: a code point that is not a surrogate. *)
Definition is_scalar (c : Z) : Prop :=
  0 <= c <= 0x10FFFF /\ ~ (0xD800 <= c <= 0xDFFF).

(** What holds of a text [t] decoded from the bytes [bs]. *)
Definition text_of (bs : bytes) (t : str) : Prop :=
  (List.length t <= List.length bs)%nat
  /\ Forall is_scalar t
  /\ (~ In x00 bs -> ~ In 0 t)
  /\ (t = [] -> bs = []).

(** A name table: each name followed by a null byte. *)
Definition pack_names (names : list bytes) : bytes :=
  List.concat (map (fun n => n ++ [x00]) names).

(** The text of a name, empty when it is not UTF-8. *)
Definition decoded (n : bytes) : str :=
  match utf8_decode n with
  | Some t => t
  | None => []
  end.

(** The records of entries and names taken in pairs. *)
Fixpoint zip_records (sod : Z) (es : list Entry) (names : list bytes)
  : list FileObject :=
  match es, names with
  | y :: es', n :: names' =>
      mkFileObject (entry_offset y + sod) (entry_size y)
                   (entry_compressed_size y)
                   (negb (entry_compressed y =? 0)) (decoded n)
      :: zip_records sod es' names'
  | _, _ => []
  end.

(** A name that the name table can hold as it is. *)
Definition storable (n : bytes) : Prop :=
  ~ In x00 n /\ (List.length n < 255)%nat /\ utf8_decode n <> None.

Definition set_name_offset (no : Z) (y : Entry) : Entry :=
  mkEntry (entry_offset y) no (entry_size y) (entry_compressed_size y)
          (entry_compressed y).

(** The entries with [name_offset] fields [f i], [f (i + 1)], ... *)
Fixpoint renumber (f : nat -> Z) (i : nat) (es : list Entry) : list Entry :=
  match es with
  | [] => []
  | y :: es' => set_name_offset (f i) y :: renumber f (S i) es'
  end.

Definition with_name_offsets (f : nat -> Z) (x : Bundle) : Bundle :=
  mkBundle (bytes_4_5 x) (version x) (bytes_8_11 x) (unused_3 x)
           (unused_5 x) (unused_6 x) (gap x) (renumber f O (entries x))
           (name_table x) (data_region x).

(** The bundle with other bytes where the format says nothing, other
    unused header fields and another gap. *)
Definition with_reserved (b45 b811 : bytes) (u3 u5 u6 : Z) (g : bytes)
                         (x : Bundle) : Bundle :=
  mkBundle b45 (version x) b811 u3 u5 u6 g (entries x) (name_table x)
           (data_region x).

(** * Properties *)

(** ** Lists of bytes and reads *)

Lemma drop_skipn (l : bytes) : forall n, drop n l = skipn (Z.to_nat n) l.
Proof.
  induction l as [|x l IH]; intros n; simpl.
  - now rewrite skipn_nil.
  - destruct (Z.leb_spec n 0) as [Hn|Hn].
    + replace (Z.to_nat n) with O by lia. reflexivity.
    + replace (Z.to_nat n) with (S (Z.to_nat (n - 1))) by lia.
      simpl. apply IH.
Qed.

Lemma take_firstn (l : bytes) : forall n, take n l = firstn (Z.to_nat n) l.
Proof.
  induction l as [|x l IH]; intros n; simpl.
  - now rewrite firstn_nil.
  - destruct (Z.leb_spec n 0) as [Hn|Hn].
    + replace (Z.to_nat n) with O by lia. reflexivity.
    + replace (Z.to_nat n) with (S (Z.to_nat (n - 1))) by lia.
      simpl. now rewrite IH.
Qed.

Lemma read_at_eq src pos n :
  read_at src pos n = firstn (Z.to_nat n) (skipn (Z.to_nat pos) src).
Proof. unfold read_at. now rewrite drop_skipn, take_firstn. Qed.

Lemma length_read_at src pos n :
  List.length (read_at src pos n)
  = Nat.min (Z.to_nat n) (List.length src - Z.to_nat pos).
Proof. rewrite read_at_eq, length_firstn, length_skipn. reflexivity. Qed.

(** A read is complete exactly when that many bytes are left. *)
Lemma read_at_full src pos (n : nat) :
  0 <= pos ->
  (List.length (read_at src pos (Z.of_nat n)) <? n)%nat = false
  <-> Z.of_nat n <= remaining src pos.
Proof.
  intros Hpos. rewrite length_read_at, Nat.ltb_ge, Nat2Z.id.
  unfold remaining, len. split; intros Hle; lia.
Qed.

Lemma unpack_at_short e src pos fmt :
  0 <= pos ->
  remaining src pos < Z.of_nat (calcsize fmt) ->
  unpack_at e src pos fmt = inl struct_error.
Proof.
  intros Hpos Hlen. unfold unpack_at, unpack_from.
  destruct (_ <? _)%nat eqn:E; [reflexivity|].
  apply read_at_full in E; [lia|assumption].
Qed.

Lemma unpack_at_ok e src pos fmt t :
  0 <= pos ->
  unpack_at e src pos fmt = inr t ->
  Z.of_nat (calcsize fmt) <= remaining src pos.
Proof.
  intros Hpos. unfold unpack_at, unpack_from.
  destruct (_ <? _)%nat eqn:E; [discriminate|].
  intros _. now apply read_at_full in E.
Qed.

Lemma unpack_at_error e src pos fmt x :
  unpack_at e src pos fmt = inl x -> x = struct_error.
Proof.
  unfold unpack_at, unpack_from.
  destruct (_ <? _)%nat; congruence.
Qed.

(** ** The methods against the functional reading *)

(** A seek followed by [unpack] is a read at the position sought; only
    the file position changes. *)
Lemma seek_unpack {B} pos fmt (k : Tuple fmt -> M B) src e objs p :
  (file_seek pos ;; t <- unpack fmt ;; k t) (mkParser (mkIO src p) e objs)
  = match unpack_at e src pos fmt with
    | inl x => inl x
    | inr t =>
        k t (mkParser
               (mkIO src (pos + len (read_at src pos
                                             (Z.of_nat (calcsize fmt)))))
               e objs)
    end.
Proof.
  unfold bind, file_seek, unpack, bind, file_read, lift, unpack_at; simpl.
  destruct (unpack_from e fmt _); reflexivity.
Qed.

Lemma seek_bind {B} pos (m : M B) src e objs p :
  (file_seek pos ;; m) (mkParser (mkIO src p) e objs)
  = m (mkParser (mkIO src pos) e objs).
Proof. reflexivity. Qed.

Lemma parse_entry_spec e src h i cur objs p :
  match parse_entry (h_entries h) (h_names h) (h_data h) i cur
                    (mkParser (mkIO src p) e objs) with
  | inl x => entry_at e src h i cur = inl x
  | inr (cur', self) =>
      exists o p',
        entry_at e src h i cur = inr (o, cur')
        /\ self = mkParser (mkIO src p') e (objs ++ [o])
  end.
Proof.
  unfold parse_entry, entry_at, entry_read, name_read.
  rewrite seek_unpack.
  destruct (unpack_at e src (h_entries h + i * size_of_file_record) _)
    as [x|[o [no [s [cs [c u]]]]]]; [reflexivity|].
  rewrite seek_unpack.
  destruct (unpack_at e src (h_names h + cur) _) as [x|[raw u']];
    [reflexivity|].
  unfold bind, lift, append, ret; simpl.
  destruct (decode (split0 raw)) as [x|nm]; [reflexivity|].
  eexists _, _. split; reflexivity.
Qed.

Lemma for_from_walk e src h n : forall i cur objs p,
  match for_from i n (parse_entry (h_entries h) (h_names h) (h_data h))
                 cur (mkParser (mkIO src p) e objs) with
  | inl x => walk e src h i n cur = inl x
  | inr (_, self) =>
      exists rs p',
        walk e src h i n cur = inr rs
        /\ self = mkParser (mkIO src p') e (objs ++ rs)
  end.
Proof.
  induction n as [|n IH]; intros i cur objs p; simpl.
  - exists [], p. now rewrite app_nil_r.
  - unfold bind.
    pose proof (parse_entry_spec e src h i cur objs p) as Hentry.
    destruct (parse_entry _ _ _ i cur _) as [x|[cur' self]].
    + now rewrite Hentry.
    + destruct Hentry as (o & p' & -> & ->).
      specialize (IH (i + 1) cur' (objs ++ [o]) p').
      destruct (for_from _ n _ cur' _) as [x|[c self]].
      * now rewrite IH.
      * destruct IH as (rs & p'' & -> & ->).
        exists (o :: rs), p''. now rewrite <- app_assoc.
Qed.

Lemma parse_files_v1_spec e src p :
  match parse_files_v1 (mkParser (mkIO src p) e []) with
  | inl x => parse_v1_spec e src = inl x
  | inr (_, self) =>
      parse_v1_spec e src = inr (file_objects self)
      /\ endianness self = e
  end.
Proof.
  unfold parse_files_v1, parse_v1_spec, header_at.
  rewrite seek_unpack.
  destruct (unpack_at e src 12 _)
    as [x|[sfe [sfn [sod [u3 [sofe [u5 [u6 u]]]]]]]]; [reflexivity|].
  rewrite seek_bind. unfold bind, ret, for_range, num_files.
  cbn [h_size].
  match goal with
  | |- context [for_from 0 ?n _ 0 (mkParser (mkIO src ?q) e [])] =>
      pose proof (for_from_walk e src (mkHeader sfe sfn sod sofe) n 0 0 []
                                q) as Hwalk
  end.
  cbn [h_entries h_names h_data] in Hwalk.
  destruct (for_from 0 _ _ 0 _) as [x|[c self]].
  - exact Hwalk.
  - destruct Hwalk as (rs & p' & -> & ->). now split.
Qed.

Lemma parse_files_spec e src p :
  match parse_files (mkParser (mkIO src p) e []) with
  | inl x =>
      match version_at e src with
      | inl y => inl y
      | inr v =>
          if v >=? 16320 then inl UnsupportedVersionError
          else parse_v1_spec e src
      end = inl x
  | inr (_, self) =>
      match version_at e src with
      | inl y => inl y
      | inr v =>
          if v >=? 16320 then inl UnsupportedVersionError
          else parse_v1_spec e src
      end = inr (file_objects self)
      /\ endianness self = e
  end.
Proof.
  unfold parse_files, version_at.
  rewrite seek_unpack.
  destruct (unpack_at e src 6 _) as [x|[v u]]; [reflexivity|].
  destruct (v >=? 16320); [reflexivity|].
  apply parse_files_v1_spec.
Qed.

(** The parser computes [parse_spec]. *)
Lemma parse_bundle_spec src : parse_bundle src = parse_spec src.
Proof.
  unfold parse_bundle, parse_spec, __init__, constructed, open, io_read;
    simpl.
  destruct (unpack_from LittleEndian [fmt_s 4] _) as [x|[header u]];
    [reflexivity|].
  unfold detect.
  destruct (if bytes_eqb header (b "LPAK") then _ else _) as [x|e];
    [reflexivity|].
  match goal with
  | |- context [parse_files (mkParser (mkIO src ?q) e [])] =>
      pose proof (parse_files_spec e src q) as Hfiles
  end.
  destruct (parse_files _) as [x|[u' self]]; [now rewrite Hfiles|].
  destruct Hfiles as [-> _]. reflexivity.
Qed.

(** ** Decoded integers *)

Lemma byte_val_range x : 0 <= byte_val x <= 255.
Proof.
  unfold byte_val. pose proof (Byte.to_N_bounded x). lia.
Qed.

Lemma fold_bytes_bound (bs : bytes) : forall acc,
  0 <= acc ->
  acc * 256 ^ len bs
  <= fold_left (fun a x => a * 256 + byte_val x) bs acc
  < (acc + 1) * 256 ^ len bs.
Proof.
  induction bs as [|x bs IH]; intros acc Hacc.
  - simpl. lia.
  - cbn [fold_left]. pose proof (byte_val_range x) as Hx.
    specialize (IH (acc * 256 + byte_val x) ltac:(lia)).
    replace (len (x :: bs)) with (1 + len bs)
      by (unfold len; cbn [List.length]; lia).
    rewrite Z.pow_add_r by (unfold len; lia).
    change (256 ^ 1) with 256.
    assert (0 < 256 ^ len bs) by (apply Z.pow_pos_nonneg; unfold len; lia).
    nia.
Qed.

Lemma int_from_bytes_bound e bs :
  0 <= int_from_bytes e bs < 256 ^ len bs.
Proof.
  assert (Hbig : forall l, 0 <= from_bytes_big l < 256 ^ len l).
  { intros l. pose proof (fold_bytes_bound l 0 ltac:(lia)) as Hl.
    unfold from_bytes_big. lia. }
  destruct e; simpl.
  - replace (len bs) with (len (rev bs))
      by (unfold len; now rewrite length_rev).
    apply Hbig.
  - apply Hbig.
Qed.

Lemma length_firstn_le {A} n (l : list A) :
  (List.length (firstn n l) <= n)%nat.
Proof. rewrite length_firstn. lia. Qed.

Lemma decode_I_bound e buf : u32 (decode_code e fmt_I (firstn 4 buf)).
Proof.
  unfold u32; cbn [decode_code].
  pose proof (int_from_bytes_bound e (firstn 4 buf)) as Hb.
  pose proof (length_firstn_le 4 buf) as Hl.
  assert (Hpow : 256 ^ len (firstn 4 buf) <= 256 ^ 4)
    by (apply Z.pow_le_mono_r; unfold len; lia).
  change (256 ^ 4) with 4294967296 in Hpow. lia.
Qed.

(** Every field of an ["I" * n] tuple is an unsigned 32-bit value. *)
Lemma unpack_I7_bound e src pos f0 f1 f2 f3 f4 f5 f6 u :
  unpack_at e src pos (repeat fmt_I 7)
  = inr (f0, (f1, (f2, (f3, (f4, (f5, (f6, u))))))) ->
  u32 f0 /\ u32 f1 /\ u32 f2 /\ u32 f4.
Proof.
  unfold unpack_at, unpack_from.
  destruct (_ <? _)%nat; [discriminate|].
  cbn [repeat decode_fields code_size]. intros [= <- <- <- _ <- _ _].
  repeat split; apply decode_I_bound.
Qed.

Lemma unpack_I5_bound e src pos f0 f1 f2 f3 f4 u :
  unpack_at e src pos (repeat fmt_I 5)
  = inr (f0, (f1, (f2, (f3, (f4, u))))) ->
  u32 f0 /\ u32 f1 /\ u32 f2 /\ u32 f3 /\ u32 f4.
Proof.
  unfold unpack_at, unpack_from.
  destruct (_ <? _)%nat; [discriminate|].
  cbn [repeat decode_fields code_size]. intros [= <- <- <- <- <-].
  repeat split; apply decode_I_bound.
Qed.

Lemma header_at_bound e src h :
  header_at e src = inr h ->
  u32 (h_entries h) /\ u32 (h_names h) /\ u32 (h_data h) /\ u32 (h_size h).
Proof.
  unfold header_at.
  destruct (unpack_at e src 12 _)
    as [x|[f0 [f1 [f2 [f3 [f4 [f5 [f6 u]]]]]]]] eqn:E; [discriminate|].
  intros [= <-]. cbn [h_entries h_names h_data h_size].
  eapply unpack_I7_bound, E.
Qed.

(** ** The walk, entry by entry *)

Lemma decode_fields_s e n buf :
  decode_fields e [fmt_s n] buf = (firstn n buf, tt).
Proof. reflexivity. Qed.

Section WalkFacts.
Variables (e : byteorder) (src : bytes) (h : Header).

Let next := next_name src (h_names h).

Lemma name_read_raw cur raw u :
  name_read e src h cur = inr (raw, u) ->
  raw = read_at src (h_names h + cur) 255
  /\ List.length raw = 255%nat.
Proof.
  unfold name_read, unpack_at, unpack_from.
  change (Z.of_nat (calcsize [fmt_s 255])) with 255.
  change (calcsize [fmt_s 255]) with 255%nat.
  destruct (_ <? _)%nat eqn:E; [discriminate|].
  apply Nat.ltb_ge in E.
  pose proof (length_read_at src (h_names h + cur) 255) as Hlen.
  assert (Hfull : List.length (read_at src (h_names h + cur) 255)
                  = 255%nat) by lia.
  rewrite decode_fields_s, firstn_all2 by lia.
  intros Heq. split; congruence.
Qed.

Lemma name_cursor_succ k :
  name_cursor src (h_names h) (S k) = next (name_cursor src (h_names h) k).
Proof. reflexivity. Qed.

Lemma next_name_pos cur : 0 <= cur -> 0 < next cur.
Proof. unfold next, next_name, len. lia. Qed.

Lemma iter_next_nonneg k : forall cur, 0 <= cur -> 0 <= Nat.iter k next cur.
Proof.
  induction k as [|k IH]; intros cur Hcur; simpl; [assumption|].
  pose proof (next_name_pos _ (IH cur Hcur)). lia.
Qed.

Lemma name_cursor_nonneg k : 0 <= name_cursor src (h_names h) k.
Proof. apply iter_next_nonneg. lia. Qed.

(** What a successful iteration read and built. *)
Lemma entry_at_inv i cur r c' :
  entry_at e src h i cur = inr (r, c') ->
  exists o no s cs c u,
    entry_read e src h i = inr (o, (no, (s, (cs, (c, u)))))
    /\ name_read e src h cur
       = inr (read_at src (h_names h + cur) 255, tt)
    /\ utf8_decode (name_bytes src (h_names h) cur) = Some (filename r)
    /\ r = mkFileObject (o + h_data h) s cs (negb (c =? 0)) (filename r)
    /\ c' = next cur.
Proof.
  unfold entry_at.
  destruct (entry_read e src h i) as [x|[o [no [s [cs [c u]]]]]];
    [discriminate|].
  destruct (name_read e src h cur) as [x|[raw []]] eqn:Hname;
    [discriminate|].
  destruct (name_read_raw _ _ _ Hname) as [-> _].
  unfold decode. fold (name_bytes src (h_names h) cur).
  destruct (utf8_decode (name_bytes src (h_names h) cur)) as [nm|] eqn:Hnm;
    [|discriminate].
  intros [= <- <-]. exists o, no, s, cs, c, u. repeat split.
Qed.

Lemma entry_at_error i cur x :
  entry_at e src h i cur = inl x ->
  x = struct_error \/ x = UnicodeDecodeError.
Proof.
  unfold entry_at, entry_read, name_read.
  destruct (unpack_at e src (h_entries h + _) _)
    as [y|[o [no [s [cs [c u]]]]]] eqn:E1.
  - intros [= <-]. left. eapply unpack_at_error, E1.
  - destruct (unpack_at e src (h_names h + cur) _) as [y|[raw u']] eqn:E2.
    + intros [= <-]. left. eapply unpack_at_error, E2.
    + unfold decode. destruct (utf8_decode _); [discriminate|].
      intros [= <-]. now right.
Qed.

Lemma walk_error n : forall i cur x,
  walk e src h i n cur = inl x ->
  x = struct_error \/ x = UnicodeDecodeError.
Proof.
  induction n as [|n IH]; intros i cur x; simpl; [discriminate|].
  destruct (entry_at e src h i cur) as [y|[o cur']] eqn:E.
  - intros [= <-]. eapply entry_at_error, E.
  - destruct (walk e src h (i + 1) n cur') as [y|rs] eqn:W;
      [|discriminate].
    intros [= <-]. eapply IH, W.
Qed.

Lemma walk_length n : forall i cur rs,
  walk e src h i n cur = inr rs -> List.length rs = n.
Proof.
  induction n as [|n IH]; intros i cur rs; simpl.
  - now intros [= <-].
  - destruct (entry_at e src h i cur) as [y|[o cur']]; [discriminate|].
    destruct (walk e src h (i + 1) n cur') as [y|rs'] eqn:W;
      [discriminate|].
    intros [= <-]. simpl. f_equal. eapply IH, W.
Qed.

(** The [k]-th record of a walk is the one iteration [k] built, at the
    cursor the [k] names before it left. *)
Lemma walk_nth n : forall i cur rs k r,
  walk e src h i n cur = inr rs ->
  nth_error rs k = Some r ->
  entry_at e src h (i + Z.of_nat k) (Nat.iter k next cur)
  = inr (r, next (Nat.iter k next cur)).
Proof.
  induction n as [|n IH]; intros i cur rs k r; simpl.
  - intros [= <-]. destruct k; discriminate.
  - destruct (entry_at e src h i cur) as [y|[o cur']] eqn:E;
      [discriminate|].
    destruct (walk e src h (i + 1) n cur') as [y|rs'] eqn:W;
      [discriminate|].
    intros [= <-]. destruct k as [|k]; simpl.
    + intros [= <-]. rewrite Z.add_0_r, E.
      destruct (entry_at_inv _ _ _ _ E) as (? & ? & ? & ? & ? & ? & H).
      now destruct H as (_ & _ & _ & _ & ->).
    + intros Hk.
      destruct (entry_at_inv _ _ _ _ E) as (? & ? & ? & ? & ? & ? & H).
      destruct H as (_ & _ & _ & _ & ->).
      specialize (IH _ _ _ _ _ W Hk).
      rewrite <- Nat.iter_succ_r in IH. cbn [Nat.iter] in IH.
      replace (i + Z.pos (Pos.of_succ_nat k)) with (i + 1 + Z.of_nat k)
        by lia.
      exact IH.
Qed.

(** The walk stops at the first iteration that raises. *)
Lemma walk_first_failure k : forall n i cur x,
  (k < n)%nat ->
  (forall j, (j < k)%nat ->
     exists r c, entry_at e src h (i + Z.of_nat j) (Nat.iter j next cur)
                 = inr (r, c)) ->
  entry_at e src h (i + Z.of_nat k) (Nat.iter k next cur) = inl x ->
  walk e src h i n cur = inl x.
Proof.
  induction k as [|k IH]; intros n i cur x Hn Hbefore Hfail;
    destruct n as [|n]; try lia; simpl.
  - simpl in Hfail. rewrite Z.add_0_r in Hfail. now rewrite Hfail.
  - destruct (Hbefore O ltac:(lia)) as (r & c & E).
    simpl in E. rewrite Z.add_0_r in E. rewrite E.
    destruct (entry_at_inv _ _ _ _ E) as (? & ? & ? & ? & ? & ? & H).
    destruct H as (_ & _ & _ & _ & ->).
    rewrite (IH n (i + 1) (next cur) x); [reflexivity|lia| |].
    + intros j Hj. destruct (Hbefore (S j) ltac:(lia)) as (r' & c' & E').
      exists r', c'. rewrite <- Nat.iter_succ_r.
      replace (i + 1 + Z.of_nat j) with (i + Z.of_nat (S j)) by lia.
      exact E'.
    + rewrite <- Nat.iter_succ_r.
      replace (i + 1 + Z.of_nat k) with (i + Z.of_nat (S k)) by lia.
      exact Hfail.
Qed.
End WalkFacts.

(** ** The magic tag *)

Lemma bytes_eqb_eq x y : bytes_eqb x y = true <-> x = y.
Proof.
  unfold bytes_eqb. destruct (list_eq_dec _ x y); split; congruence.
Qed.

Lemma detect_inv header e : detect header = inr e <-> header = magic_of e.
Proof.
  unfold detect. split.
  - destruct (bytes_eqb header (b "LPAK")) eqn:E1.
    + apply bytes_eqb_eq in E1. now intros [= <-].
    + destruct (bytes_eqb header (b "KAPL")) eqn:E2; [|discriminate].
      apply bytes_eqb_eq in E2. now intros [= <-].
  - intros ->. now destruct e.
Qed.

Lemma detect_other header :
  header <> b "LPAK" -> header <> b "KAPL" ->
  detect header = inl UnrecognizedFormatError.
Proof.
  intros H1 H2. unfold detect.
  destruct (bytes_eqb header (b "LPAK")) eqn:E1;
    [now apply bytes_eqb_eq in E1|].
  destruct (bytes_eqb header (b "KAPL")) eqn:E2;
    [now apply bytes_eqb_eq in E2|reflexivity].
Qed.

Lemma read_magic src :
  read_at src 0 4 = firstn 4 src.
Proof. now rewrite read_at_eq. Qed.

Lemma unpack_magic src :
  (4 <= List.length src)%nat ->
  unpack_from LittleEndian [fmt_s 4] (read_at src 0 4)
  = inr (firstn 4 src, tt).
Proof.
  intros Hlen. unfold unpack_from. rewrite read_magic.
  change (calcsize [fmt_s 4]) with 4%nat.
  destruct (_ <? _)%nat eqn:E.
  - apply Nat.ltb_lt in E. rewrite length_firstn in E. lia.
  - rewrite decode_fields_s, firstn_all2; [reflexivity|].
    apply length_firstn_le.
Qed.

Lemma unpack_magic_inv src header u :
  unpack_from LittleEndian [fmt_s 4] (read_at src 0 4) = inr (header, u) ->
  header = firstn 4 src /\ (4 <= List.length src)%nat.
Proof.
  unfold unpack_from. rewrite read_magic.
  change (calcsize [fmt_s 4]) with 4%nat.
  destruct (_ <? _)%nat eqn:E; [discriminate|].
  apply Nat.ltb_ge in E. rewrite length_firstn in E.
  rewrite decode_fields_s, firstn_all2 by apply length_firstn_le.
  intros Heq. split; [congruence|lia].
Qed.

Lemma magic_length src e :
  firstn 4 src = magic_of e -> (4 <= List.length src)%nat.
Proof.
  intros Hm. apply (f_equal (@List.length byte)) in Hm.
  rewrite length_firstn in Hm.
  replace (List.length (magic_of e)) with 4%nat in Hm
    by (now destruct e).
  lia.
Qed.

(** The constructor on a file that starts with a recognized tag. *)
Lemma init_recognized src e :
  firstn 4 src = magic_of e ->
  __init__ (open src)
  = constructed (parse_files (mkParser (mkIO src 4) e [])).
Proof.
  intros Hm. pose proof (magic_length _ _ Hm) as Hlen.
  unfold __init__, open, io_read. cbn [content tell].
  rewrite (unpack_magic _ Hlen). fold (detect (firstn 4 src)).
  rewrite (proj2 (detect_inv _ _) Hm).
  rewrite read_magic. unfold len. rewrite length_firstn.
  replace (0 + Z.of_nat (Nat.min 4 (List.length src))) with 4 by lia.
  reflexivity.
Qed.

Lemma parse_spec_recognized src e :
  firstn 4 src = magic_of e ->
  parse_spec src
  = match version_at e src with
    | inl x => inl x
    | inr v =>
        if v >=? 16320 then inl UnsupportedVersionError
        else parse_v1_spec e src
    end.
Proof.
  intros Hm. unfold parse_spec.
  rewrite (unpack_magic _ (magic_length _ _ Hm)).
  now rewrite (proj2 (detect_inv _ _) Hm).
Qed.

(** What a successful parse went through. *)
Lemma parse_success_inv src rs :
  parse_bundle src = inr rs ->
  exists e v h,
    firstn 4 src = magic_of e
    /\ version_at e src = inr v /\ v < 16320
    /\ header_at e src = inr h
    /\ walk e src h 0 (Z.to_nat (num_files h)) 0 = inr rs.
Proof.
  rewrite parse_bundle_spec. unfold parse_spec.
  destruct (unpack_from _ _ _) as [x|[header u]] eqn:Hmag; [discriminate|].
  apply unpack_magic_inv in Hmag as [-> _].
  destruct (detect (firstn 4 src)) as [x|e] eqn:Hdet; [discriminate|].
  apply detect_inv in Hdet.
  destruct (version_at e src) as [x|v] eqn:Hver; [discriminate|].
  destruct (Z.geb_spec v 16320) as [Hge|Hlt]; [discriminate|].
  unfold parse_v1_spec.
  destruct (header_at e src) as [x|h] eqn:Hhdr; [discriminate|].
  intros Hwalk. exists e, v, h. repeat split; assumption.
Qed.

Lemma parse_v1_error e src x :
  parse_v1_spec e src = inl x ->
  x = struct_error \/ x = UnicodeDecodeError.
Proof.
  unfold parse_v1_spec, header_at.
  destruct (unpack_at e src 12 _)
    as [y|[f0 [f1 [f2 [f3 [f4 [f5 [f6 u]]]]]]]] eqn:E.
  - intros [= <-]. left. eapply unpack_at_error, E.
  - apply walk_error.
Qed.

(** ** The version gate *)

Lemma unpack_H_inv e src pos v u :
  unpack_at e src pos [fmt_H] = inr (v, u) ->
  v = int_from_bytes e (read_at src pos 2)
  /\ List.length (read_at src pos 2) = 2%nat.
Proof.
  unfold unpack_at, unpack_from.
  change (Z.of_nat (calcsize [fmt_H])) with 2.
  change (calcsize [fmt_H]) with 2%nat.
  destruct (_ <? _)%nat eqn:E; [discriminate|].
  apply Nat.ltb_ge in E.
  pose proof (length_read_at src pos 2) as Hlen.
  assert (Hfull : List.length (read_at src pos 2) = 2%nat) by lia.
  change (decode_fields e [fmt_H] (read_at src pos 2))
    with (int_from_bytes e (firstn 2 (read_at src pos 2)), tt).
  rewrite firstn_all2 by lia.
  intros Heq. split; congruence.
Qed.

(** C5: once the tag is recognized, the unsigned 16-bit value at byte
    offset 6, read in the selected byte order, decides: the parse raises
    the unsupported-version [ValueError] exactly when the value is at
    least 16320, and below that the constructor runs [parse_files_v1]. *)
Theorem version_gate (src : bytes) (e : byteorder) (v : Z) :
  firstn 4 src = magic_of e ->
  unpack_at e src 6 [fmt_H] = inr (v, tt) ->
  v = int_from_bytes e (firstn 2 (skipn 6 src))
  /\ (parse_bundle src = inl UnsupportedVersionError <-> 16320 <= v)
  /\ (v < 16320 ->
      __init__ (open src)
      = constructed (parse_files_v1 (mkParser (mkIO src 8) e []))).
Proof.
  intros Hm Hv.
  destruct (unpack_H_inv _ _ _ _ _ Hv) as [Hval Hlen].
  split; [|split].
  - rewrite Hval, read_at_eq. reflexivity.
  - rewrite parse_bundle_spec, (parse_spec_recognized _ _ Hm).
    unfold version_at. rewrite Hv.
    destruct (Z.geb_spec v 16320) as [Hge|Hlt].
    + split; [lia|reflexivity].
    + split; [|lia]. intros Hbad.
      destruct (parse_v1_error _ _ _ Hbad); discriminate.
  - intros Hlt. rewrite (init_recognized _ _ Hm).
    unfold parse_files. rewrite seek_unpack, Hv.
    destruct (Z.geb_spec v 16320) as [Hge|_]; [lia|].
    unfold len. change (Z.of_nat (calcsize [fmt_H])) with 2.
    rewrite Hlen. reflexivity.
Qed.

Lemma version_gate_witness :
  parse_bundle
    (encode BigEndian (mkBundle (zeros 2) 16320 (zeros 4) 0 0 0 [] [] [] []))
  = inl UnsupportedVersionError.
Proof.
  apply (proj1 (proj2 (version_gate
    (encode BigEndian (mkBundle (zeros 2) 16320 (zeros 4) 0 0 0 [] [] [] []))
    BigEndian 16320 eq_refl eq_refl))).
  lia.
Defined.

(** ** The records of a successful parse *)

Lemma header_at_inv e src h :
  header_at e src = inr h ->
  exists f3 f5 f6,
    unpack_at e src 12 (repeat fmt_I 7)
    = inr (h_entries h, (h_names h, (h_data h,
             (f3, (h_size h, (f5, (f6, tt))))))).
Proof.
  unfold header_at.
  destruct (unpack_at e src 12 _)
    as [x|[f0 [f1 [f2 [f3 [f4 [f5 [f6 []]]]]]]]]; [discriminate|].
  intros [= <-]. now exists f3, f5, f6.
Qed.

Lemma num_files_nonneg e src h :
  header_at e src = inr h -> 0 <= num_files h.
Proof.
  intros Hh. destruct (header_at_bound _ _ _ Hh) as (_ & _ & _ & Hs).
  unfold num_files, size_of_file_record. unfold u32 in Hs.
  apply Z.div_pos; lia.
Qed.

(** Record [i] of a successful walk, for [i] below [num_files]. *)
Lemma walk_record e src h rs i :
  header_at e src = inr h ->
  walk e src h 0 (Z.to_nat (num_files h)) 0 = inr rs ->
  0 <= i < num_files h ->
  exists r,
    nth_error rs (Z.to_nat i) = Some r
    /\ entry_at e src h i (name_cursor src (h_names h) (Z.to_nat i))
       = inr (r, name_cursor src (h_names h) (S (Z.to_nat i))).
Proof.
  intros Hh Hwalk Hi.
  pose proof (walk_length _ _ _ _ _ _ _ Hwalk) as Hlen.
  destruct (nth_error rs (Z.to_nat i)) as [r|] eqn:Hnth.
  - exists r. split; [reflexivity|].
    pose proof (walk_nth _ _ _ _ _ _ _ _ _ Hwalk Hnth) as Hentry.
    rewrite Z2Nat.id, Z.add_0_l in Hentry by lia. exact Hentry.
  - apply nth_error_None in Hnth. lia.
Qed.

(** C6: a successful parse yields as many records as the fifth of the
    seven unsigned 32-bit fields at byte offset 12, floor-divided by 20;
    a value that is not a multiple of 20 is accepted, as in [odd_sized]
    whose field is 39 and which parses to one record. *)
Theorem record_count :
  (forall src rs,
     parse_bundle src = inr rs ->
     exists e f0 f1 f2 f3 f4 f5 f6,
       firstn 4 src = magic_of e
       /\ unpack_at e src 12 (repeat fmt_I 7)
          = inr (f0, (f1, (f2, (f3, (f4, (f5, (f6, tt)))))))
       /\ len rs = f4 / 20)
  /\ (exists rs f0 f1 f2 f3 f5 f6,
        unpack_at BigEndian odd_sized 12 (repeat fmt_I 7)
        = inr (f0, (f1, (f2, (f3, (39, (f5, (f6, tt)))))))
        /\ parse_bundle odd_sized = inr rs
        /\ len rs = 1).
Proof.
  split.
  - intros src rs Hparse.
    destruct (parse_success_inv _ _ Hparse)
      as (e & v & h & Hm & _ & _ & Hh & Hwalk).
    destruct (header_at_inv _ _ _ Hh) as (f3 & f5 & f6 & Hfields).
    exists e, (h_entries h), (h_names h), (h_data h), f3, (h_size h), f5, f6.
    repeat split; try assumption.
    pose proof (num_files_nonneg _ _ _ Hh) as Hn.
    unfold len. rewrite (walk_length _ _ _ _ _ _ _ Hwalk).
    unfold num_files, size_of_file_record in *. lia.
  - exists [mkFileObject 65 1 1 false []], 40, 60, 60, 0, 0, 0.
    split; [|split]; vm_compute; reflexivity.
Qed.

Lemma record_count_witness :
  exists e f0 f1 f2 f3 f4 f5 f6,
    firstn 4 three_files_le = magic_of e
    /\ unpack_at e three_files_le 12 (repeat fmt_I 7)
       = inr (f0, (f1, (f2, (f3, (f4, (f5, (f6, tt)))))))
    /\ len three_records = f4 / 20.
Proof.
  apply (proj1 record_count three_files_le three_records).
  vm_compute. reflexivity.
Defined.

(** C7: in a successful parse, record [i] comes from the five unsigned
    32-bit fields at [start_of_file_entries + i * 20]: its offset is the
    first field plus [start_of_data], its sizes are the third and fourth
    fields, and it is compressed exactly when the fifth is not zero. The
    list is indexed as the entry table is. *)
Theorem records_follow_entry_table (src : bytes) (rs : list FileObject) :
  parse_bundle src = inr rs ->
  exists e h,
    firstn 4 src = magic_of e
    /\ header_at e src = inr h
    /\ forall i, 0 <= i < num_files h ->
       exists r o no s cs c,
         nth_error rs (Z.to_nat i) = Some r
         /\ unpack_at e src (h_entries h + i * 20) (repeat fmt_I 5)
            = inr (o, (no, (s, (cs, (c, tt)))))
         /\ offset r = o + h_data h
         /\ size r = s
         /\ compressed_size r = cs
         /\ (compressed r = true <-> c <> 0).
Proof.
  intros Hparse.
  destruct (parse_success_inv _ _ Hparse)
    as (e & v & h & Hm & _ & _ & Hh & Hwalk).
  exists e, h. repeat split; try assumption.
  intros i Hi.
  destruct (walk_record _ _ _ _ _ Hh Hwalk Hi) as (r & Hnth & Hentry).
  destruct (entry_at_inv _ _ _ _ _ _ _ Hentry)
    as (o & no & s & cs & c & [] & Hread & _ & _ & Hr & _).
  exists r, o, no, s, cs, c.
  split; [exact Hnth|]. split; [exact Hread|].
  rewrite Hr. cbn [offset size compressed_size compressed].
  repeat split.
  - intros Hc ->. discriminate.
  - intros Hc. destruct (Z.eqb_spec c 0); [contradiction|reflexivity].
Qed.

Lemma records_follow_entry_table_witness :
  exists e h,
    firstn 4 three_files_be = magic_of e
    /\ header_at e three_files_be = inr h
    /\ forall i, 0 <= i < num_files h ->
       exists r o no s cs c,
         nth_error three_records (Z.to_nat i) = Some r
         /\ unpack_at e three_files_be (h_entries h + i * 20)
                      (repeat fmt_I 5)
            = inr (o, (no, (s, (cs, (c, tt)))))
         /\ offset r = o + h_data h
         /\ size r = s
         /\ compressed_size r = cs
         /\ (compressed r = true <-> c <> 0).
Proof.
  apply (records_follow_entry_table three_files_be three_records).
  vm_compute. reflexivity.
Defined.

(** ** The header and the first failing iteration *)

Lemma read_header_inv src e h :
  read_header src = inr (e, h) ->
  firstn 4 src = magic_of e
  /\ (exists v, version_at e src = inr v /\ v < 16320)
  /\ header_at e src = inr h.
Proof.
  unfold read_header.
  destruct (unpack_from _ _ _) as [x|[header u]] eqn:Hmag; [discriminate|].
  apply unpack_magic_inv in Hmag as [-> _].
  destruct (detect (firstn 4 src)) as [x|e'] eqn:Hdet; [discriminate|].
  apply detect_inv in Hdet.
  destruct (version_at e' src) as [x|v] eqn:Hver; [discriminate|].
  destruct (Z.geb_spec v 16320) as [Hge|Hlt]; [discriminate|].
  destruct (header_at e' src) as [x|h'] eqn:Hhdr; [discriminate|].
  intros [= <- <-]. repeat split; try assumption. now exists v.
Qed.

(** After the header, the parse is the walk. *)
Lemma parse_after_header src e h :
  read_header src = inr (e, h) ->
  parse_bundle src = walk e src h 0 (Z.to_nat (num_files h)) 0.
Proof.
  intros Hhdr.
  destruct (read_header_inv _ _ _ Hhdr) as (Hm & (v & Hv & Hlt) & Hh).
  rewrite parse_bundle_spec, (parse_spec_recognized _ _ Hm), Hv.
  destruct (Z.geb_spec v 16320) as [Hge|_]; [lia|].
  unfold parse_v1_spec. now rewrite Hh.
Qed.

Lemma parse_success_header src rs :
  parse_bundle src = inr rs ->
  exists e h,
    read_header src = inr (e, h)
    /\ walk e src h 0 (Z.to_nat (num_files h)) 0 = inr rs.
Proof.
  intros Hparse.
  destruct (parse_success_inv _ _ Hparse)
    as (e & v & h & Hm & Hv & Hlt & Hh & Hwalk).
  exists e, h. split; [|assumption].
  unfold read_header.
  rewrite (unpack_magic _ (magic_length _ _ Hm)).
  rewrite (proj2 (detect_inv _ _) Hm), Hv.
  destruct (Z.geb_spec v 16320) as [Hge|_]; [lia|].
  now rewrite Hh.
Qed.

(** The loop raises what the first iteration that raises does. *)
Lemma walk_stops e src h k n x :
  reaches e src h k = true ->
  (k < n)%nat ->
  entry_at e src h (Z.of_nat k) (name_cursor src (h_names h) k) = inl x ->
  walk e src h 0 n 0 = inl x.
Proof.
  unfold reaches. intros Hreach Hk Hfail.
  destruct (walk e src h 0 k 0) as [y|rs] eqn:Hwalk; [discriminate|].
  apply (walk_first_failure e src h k); [assumption| |exact Hfail].
  intros j Hj.
  pose proof (walk_length _ _ _ _ _ _ _ Hwalk) as Hlen.
  destruct (nth_error rs j) as [r|] eqn:Hnth.
  - exists r. eexists. exact (walk_nth _ _ _ _ _ _ _ _ _ Hwalk Hnth).
  - apply nth_error_None in Hnth. lia.
Qed.

Lemma parse_stops src e h k x :
  read_header src = inr (e, h) ->
  0 <= Z.of_nat k < num_files h ->
  reaches e src h k = true ->
  entry_at e src h (Z.of_nat k) (name_cursor src (h_names h) k) = inl x ->
  parse_bundle src = inl x.
Proof.
  intros Hhdr Hk Hreach Hfail.
  rewrite (parse_after_header _ _ _ Hhdr).
  apply (walk_stops _ _ _ k); [assumption|lia|assumption].
Qed.

(** How an iteration raises. *)
Lemma entry_at_short_entry e src h i cur :
  0 <= h_entries h -> 0 <= i ->
  remaining src (h_entries h + i * 20) < 20 ->
  entry_at e src h i cur = inl struct_error.
Proof.
  intros Hh Hi Hshort. unfold entry_at, entry_read.
  rewrite unpack_at_short; [reflexivity| |exact Hshort].
  unfold size_of_file_record. lia.
Qed.

Lemma entry_at_short_name e src h i cur t :
  0 <= h_names h -> 0 <= cur ->
  entry_read e src h i = inr t ->
  remaining src (h_names h + cur) < 255 ->
  entry_at e src h i cur = inl struct_error.
Proof.
  intros Hh Hcur Hentry Hshort. unfold entry_at. rewrite Hentry.
  destruct t as [o [no [s [cs [c u]]]]].
  unfold name_read. rewrite unpack_at_short; [reflexivity|lia|exact Hshort].
Qed.

Lemma entry_at_bad_name e src h i cur t :
  entry_read e src h i = inr t ->
  (255 <= remaining src (h_names h + cur)) ->
  0 <= h_names h -> 0 <= cur ->
  utf8_decode (name_bytes src (h_names h) cur) = None ->
  entry_at e src h i cur = inl UnicodeDecodeError.
Proof.
  intros Hentry Hfull Hh Hcur Hbad. unfold entry_at. rewrite Hentry.
  destruct t as [o [no [s [cs [c u]]]]].
  destruct (name_read e src h cur) as [x|[raw u']] eqn:Hname.
  - unfold name_read in Hname.
    unfold unpack_at, unpack_from in Hname.
    destruct (_ <? _)%nat eqn:E; [|discriminate].
    exfalso.
    assert (E' : (List.length (read_at src (h_names h + cur) (Z.of_nat 255))
                  <? 255)%nat = false)
      by (apply read_at_full; [lia|exact Hfull]).
    change (calcsize [fmt_s 255]) with 255%nat in E. congruence.
  - destruct (name_read_raw _ _ _ _ _ _ Hname) as [-> _].
    unfold decode. fold (name_bytes src (h_names h) cur). now rewrite Hbad.
Qed.

(** ** Offsets *)

(** C3, as stated, fails: [far_offset] parses, and the offset of its
    record is far beyond the 315 bytes of the file. *)
Lemma offset_within_source_counterexample :
  ~ (forall src rs r,
       parse_bundle src = inr rs -> In r rs ->
       0 <= offset r <= len src).
Proof.
  intros Hclaim.
  specialize (Hclaim far_offset
                     [mkFileObject 1000315 1 1 false (text "a")]
                     (mkFileObject 1000315 1 1 false (text "a"))).
  assert (Hparse : parse_bundle far_offset
                   = inr [mkFileObject 1000315 1 1 false (text "a")])
    by (vm_compute; reflexivity).
  specialize (Hclaim Hparse (or_introl eq_refl)).
  vm_compute in Hclaim. destruct Hclaim as [_ Hle]. now apply Hle.
Qed.

(** C3, amended: the offset of every record of a successful parse is the
    first field of its entry plus [start_of_data]; both are unsigned
    32-bit values, so the offset is between 0 and 8589934590. Nothing
    relates it to the length of the file. *)
Theorem offset_is_entry_plus_data (src : bytes) (rs : list FileObject) :
  parse_bundle src = inr rs ->
  exists e h,
    read_header src = inr (e, h)
    /\ forall k r, nth_error rs k = Some r ->
       exists o no s cs c,
         unpack_at e src (h_entries h + Z.of_nat k * 20) (repeat fmt_I 5)
         = inr (o, (no, (s, (cs, (c, tt)))))
         /\ offset r = o + h_data h
         /\ 0 <= offset r <= 8589934590.
Proof.
  intros Hparse.
  destruct (parse_success_header _ _ Hparse) as (e & h & Hhdr & Hwalk).
  exists e, h. split; [assumption|]. intros k r Hnth.
  pose proof (walk_nth _ _ _ _ _ _ _ _ _ Hwalk Hnth) as Hentry.
  rewrite Z.add_0_l in Hentry.
  destruct (entry_at_inv _ _ _ _ _ _ _ Hentry)
    as (o & no & s & cs & c & [] & Hread & _ & _ & Hr & _).
  exists o, no, s, cs, c. split; [exact Hread|].
  destruct (read_header_inv _ _ _ Hhdr) as (_ & _ & Hh).
  destruct (header_at_bound _ _ _ Hh) as (_ & _ & Hd & _).
  destruct (unpack_I5_bound _ _ _ _ _ _ _ _ _ Hread) as (Ho & _).
  rewrite Hr. cbn [offset]. unfold u32 in *. lia.
Qed.

Lemma offset_is_entry_plus_data_witness :
  exists e h,
    read_header far_offset = inr (e, h)
    /\ forall k r,
       nth_error [mkFileObject 1000315 1 1 false (text "a")] k = Some r ->
       exists o no s cs c,
         unpack_at e far_offset (h_entries h + Z.of_nat k * 20)
                   (repeat fmt_I 5)
         = inr (o, (no, (s, (cs, (c, tt)))))
         /\ offset r = o + h_data h
         /\ 0 <= offset r <= 8589934590.
Proof.
  apply (offset_is_entry_plus_data far_offset
           [mkFileObject 1000315 1 1 false (text "a")]).
  vm_compute. reflexivity.
Defined.

(** ** Names *)

(** The name of record [k] of a successful walk. *)
Lemma walk_name e src h n rs k r :
  walk e src h 0 n 0 = inr rs ->
  nth_error rs k = Some r ->
  let pos := h_names h + name_cursor src (h_names h) k in
  0 <= h_names h ->
  255 <= remaining src pos
  /\ List.length (read_at src pos 255) = 255%nat
  /\ utf8_decode (split0 (read_at src pos 255)) = Some (filename r).
Proof.
  intros Hwalk Hnth pos Hh.
  pose proof (walk_nth _ _ _ _ _ _ _ _ _ Hwalk Hnth) as Hentry.
  destruct (entry_at_inv _ _ _ _ _ _ _ Hentry)
    as (o & no & s & cs & c & u & _ & Hname & Hdec & _ & _).
  pose proof (name_cursor_nonneg src h k) as Hcur.
  split; [|split].
  - assert (Hpos : 0 <= pos) by (subst pos; lia).
    exact (unpack_at_ok _ _ _ _ _ Hpos Hname).
  - now destruct (name_read_raw _ _ _ _ _ _ Hname).
  - exact Hdec.
Qed.

(** C1: the names are consumed in sequence. The cursor is 0 before the
    first entry and moves by the length of each name plus one; the name
    of record [k] is what stands at [start_of_file_names] plus the cursor,
    up to the first null byte. The [name_offset] field of an entry has no
    part in it: whatever the three entries of [three_names] hold, in
    either byte order, the names read are [a.txt], [bb.txt] and [c]. *)
Theorem names_consumed_in_sequence :
  (forall src rs,
     parse_bundle src = inr rs ->
     exists e h,
       read_header src = inr (e, h)
       /\ name_cursor src (h_names h) 0 = 0
       /\ (forall k,
             name_cursor src (h_names h) (S k)
             = name_cursor src (h_names h) k
               + len (name_bytes src (h_names h)
                                 (name_cursor src (h_names h) k)) + 1)
       /\ forall k r, nth_error rs k = Some r ->
          utf8_decode (split0 (read_at src
                         (h_names h + name_cursor src (h_names h) k) 255))
          = Some (filename r))
  /\ (forall e x0 x1 x2,
        filenames (parse_bundle (encode e (three_names x0 x1 x2)))
        = inr [text "a.txt"; text "bb.txt"; text "c"]).
Proof.
  split.
  - intros src rs Hparse.
    destruct (parse_success_header _ _ Hparse) as (e & h & Hhdr & Hwalk).
    exists e, h. repeat split; try assumption.
    intros k r Hnth.
    destruct (read_header_inv _ _ _ Hhdr) as (_ & _ & Hh).
    destruct (header_at_bound _ _ _ Hh) as (_ & Hn & _).
    apply (walk_name _ _ _ _ _ _ _ Hwalk Hnth). unfold u32 in Hn. lia.
  - intros e x0 x1 x2. destruct e; vm_compute; reflexivity.
Qed.

Lemma names_consumed_in_sequence_witness :
  exists e h,
    read_header three_files_le = inr (e, h)
    /\ name_cursor three_files_le (h_names h) 0 = 0
    /\ (forall k,
          name_cursor three_files_le (h_names h) (S k)
          = name_cursor three_files_le (h_names h) k
            + len (name_bytes three_files_le (h_names h)
                              (name_cursor three_files_le (h_names h) k))
            + 1)
    /\ forall k r, nth_error three_records k = Some r ->
       utf8_decode (split0 (read_at three_files_le
                      (h_names h + name_cursor three_files_le (h_names h) k)
                      255))
       = Some (filename r).
Proof.
  apply (proj1 names_consumed_in_sequence three_files_le three_records).
  vm_compute. reflexivity.
Defined.

(** C2, as stated, fails: in [name_at_end] the name [a] and its
    terminator are the last two bytes of the file, so the name is all
    there, and the parse raises [struct.error]. *)
Lemma name_at_end_counterexample :
  read_header name_at_end = inr (BigEndian, mkHeader 40 60 62 20)
  /\ read_at name_at_end 60 2 = b "a" ++ [x00]
  /\ remaining name_at_end 60 = 2
  /\ parse_bundle name_at_end = inl TruncatedInputError.
Proof. repeat split; vm_compute; reflexivity. Qed.

(** C2, amended: a name is read as a 255-byte field. In a successful
    parse every name read found 255 bytes at [start_of_file_names] plus
    the cursor, and the name is what they hold before the first null
    byte. When the loop gets to an entry whose record is read but fewer
    than 255 bytes are left at its name, the parse raises [struct.error],
    whether or not the terminator of the name is among them. *)
Theorem name_read_takes_255_bytes :
  (forall src rs,
     parse_bundle src = inr rs ->
     exists e h,
       read_header src = inr (e, h)
       /\ forall k r, nth_error rs k = Some r ->
          let pos := h_names h + name_cursor src (h_names h) k in
          255 <= remaining src pos
          /\ List.length (read_at src pos 255) = 255%nat
          /\ utf8_decode (split0 (read_at src pos 255))
             = Some (filename r))
  /\ (forall src e h k t,
        read_header src = inr (e, h) ->
        0 <= Z.of_nat k < num_files h ->
        reaches e src h k = true ->
        entry_read e src h (Z.of_nat k) = inr t ->
        remaining src (h_names h + name_cursor src (h_names h) k) < 255 ->
        parse_bundle src = inl TruncatedInputError).
Proof.
  split.
  - intros src rs Hparse.
    destruct (parse_success_header _ _ Hparse) as (e & h & Hhdr & Hwalk).
    exists e, h. split; [assumption|]. intros k r Hnth.
    destruct (read_header_inv _ _ _ Hhdr) as (_ & _ & Hh).
    destruct (header_at_bound _ _ _ Hh) as (_ & Hn & _).
    apply (walk_name _ _ _ _ _ _ _ Hwalk Hnth). unfold u32 in Hn. lia.
  - intros src e h k t Hhdr Hk Hreach Hentry Hshort.
    apply (parse_stops _ _ _ _ _ Hhdr Hk Hreach).
    destruct (read_header_inv _ _ _ Hhdr) as (_ & _ & Hh).
    destruct (header_at_bound _ _ _ Hh) as (_ & Hn & _).
    apply (entry_at_short_name _ _ _ _ _ t);
      [unfold u32 in Hn; lia|apply name_cursor_nonneg|assumption|assumption].
Qed.

Lemma name_read_takes_255_bytes_witness :
  (exists e h,
     read_header three_files_be = inr (e, h)
     /\ forall k r, nth_error three_records k = Some r ->
        let pos := h_names h + name_cursor three_files_be (h_names h) k in
        255 <= remaining three_files_be pos
        /\ List.length (read_at three_files_be pos 255) = 255%nat
        /\ utf8_decode (split0 (read_at three_files_be pos 255))
           = Some (filename r))
  /\ parse_bundle name_at_end = inl TruncatedInputError.
Proof.
  split.
  - apply (proj1 name_read_takes_255_bytes three_files_be three_records).
    vm_compute. reflexivity.
  - apply (proj2 name_read_takes_255_bytes name_at_end BigEndian
                 (mkHeader 40 60 62 20) O (0, (0, (0, (0, (0, tt)))))).
    + vm_compute. reflexivity.
    + vm_compute. split; [discriminate|reflexivity].
    + vm_compute. reflexivity.
    + vm_compute. reflexivity.
    + vm_compute. reflexivity.
Defined.

(** C10: the bytes of every name must decode as UTF-8. A successful
    parse decoded each of them; when the loop gets to an entry whose
    record and 255 name bytes are read but whose name is not UTF-8, the
    parse raises [UnicodeDecodeError] and there is no parser object.
    [bad_name] is such a file: tag, version and all reads are fine, its
    one name is the byte [0xFF]. *)
Theorem names_must_be_utf8 :
  (forall src rs,
     parse_bundle src = inr rs ->
     exists e h,
       read_header src = inr (e, h)
       /\ forall k, 0 <= Z.of_nat k < num_files h ->
          utf8_decode (name_bytes src (h_names h)
                                  (name_cursor src (h_names h) k))
          <> None)
  /\ (forall src e h k t,
        read_header src = inr (e, h) ->
        0 <= Z.of_nat k < num_files h ->
        reaches e src h k = true ->
        entry_read e src h (Z.of_nat k) = inr t ->
        255 <= remaining src (h_names h + name_cursor src (h_names h) k) ->
        utf8_decode (name_bytes src (h_names h)
                                (name_cursor src (h_names h) k)) = None ->
        __init__ (open src) = inl UnicodeDecodeError)
  /\ (exists e h t,
        read_header bad_name = inr (e, h)
        /\ num_files h = 1
        /\ entry_read e bad_name h 0 = inr t
        /\ 255 <= remaining bad_name (h_names h)
        /\ name_bytes bad_name (h_names h) 0 = [xff]
        /\ __init__ (open bad_name) = inl UnicodeDecodeError).
Proof.
  split; [|split].
  - intros src rs Hparse.
    destruct (parse_success_header _ _ Hparse) as (e & h & Hhdr & Hwalk).
    exists e, h. split; [assumption|]. intros k Hk.
    destruct (read_header_inv _ _ _ Hhdr) as (_ & _ & Hh).
    destruct (walk_record _ _ _ _ (Z.of_nat k) Hh Hwalk Hk)
      as (r & _ & Hentry).
    rewrite Nat2Z.id in Hentry.
    destruct (entry_at_inv _ _ _ _ _ _ _ Hentry)
      as (o & no & s & cs & c & u & _ & _ & Hdec & _ & _).
    congruence.
  - intros src e h k t Hhdr Hk Hreach Hentry Hfull Hbad.
    destruct (read_header_inv _ _ _ Hhdr) as (_ & _ & Hh).
    destruct (header_at_bound _ _ _ Hh) as (_ & Hn & _).
    assert (Hparse : parse_bundle src = inl UnicodeDecodeError).
    { apply (parse_stops _ _ _ _ _ Hhdr Hk Hreach).
      apply (entry_at_bad_name _ _ _ _ _ t); try assumption.
      - unfold u32 in Hn. lia.
      - apply name_cursor_nonneg. }
    unfold parse_bundle in Hparse.
    destruct (__init__ (open src)); congruence.
  - exists BigEndian, (mkHeader 295 40 315 20), (0, (0, (1, (1, (0, tt))))).
    repeat split; vm_compute; try reflexivity. discriminate.
Qed.

Lemma names_must_be_utf8_witness :
  (exists e h,
     read_header three_files_be = inr (e, h)
     /\ forall k, 0 <= Z.of_nat k < num_files h ->
        utf8_decode (name_bytes three_files_be (h_names h)
                       (name_cursor three_files_be (h_names h) k))
        <> None)
  /\ __init__ (open bad_name) = inl UnicodeDecodeError.
Proof.
  split.
  - apply (proj1 names_must_be_utf8 three_files_be three_records).
    vm_compute. reflexivity.
  - apply (proj1 (proj2 names_must_be_utf8) bad_name BigEndian
                 (mkHeader 295 40 315 20) O (0, (0, (1, (1, (0, tt)))))).
    + vm_compute. reflexivity.
    + vm_compute. split; [discriminate|reflexivity].
    + vm_compute. reflexivity.
    + vm_compute. reflexivity.
    + vm_compute. discriminate.
    + vm_compute. reflexivity.
Defined.

(** ** Short reads *)

Lemma unpack_short fmt src p e objs :
  0 <= p ->
  remaining src p < Z.of_nat (calcsize fmt) ->
  unpack fmt (mkParser (mkIO src p) e objs) = inl struct_error.
Proof.
  intros Hp Hshort. unfold unpack, bind, file_read, io_read, lift.
  cbn [file content tell endianness].
  fold (unpack_at e src p fmt). now rewrite unpack_at_short.
Qed.

Lemma remaining_short src pos n :
  0 <= pos -> 0 < n -> len src < pos + n -> remaining src pos < n.
Proof. unfold remaining. lia. Qed.

Lemma remaining_full src pos n :
  0 <= pos -> n <= remaining src pos -> 0 < n -> pos + n <= len src.
Proof. unfold remaining. lia. Qed.

(** C8: a read that finds fewer bytes than its format needs raises
    [struct.error], and nothing in the parser catches it. [unpack] raises
    on any such read; the parse raises when the file is too short for the
    tag, for the version field or for the header fields, and when the
    loop gets to an entry whose 20 bytes are not all there, after however
    many entries that were read in full. A parse that succeeds made every
    read in full. [cut_in_fifth] announces five entries and ends ten
    bytes into the fifth: four entries are read, and the parse raises. *)
Theorem short_read_is_fatal :
  (forall fmt self,
     0 <= tell (file self) ->
     remaining (content (file self)) (tell (file self))
     < Z.of_nat (calcsize fmt) ->
     unpack fmt self = inl TruncatedInputError)
  /\ (forall src,
        len src < 4 -> __init__ (open src) = inl TruncatedInputError)
  /\ (forall src e,
        firstn 4 src = magic_of e -> len src < 8 ->
        __init__ (open src) = inl TruncatedInputError)
  /\ (forall src e v,
        firstn 4 src = magic_of e ->
        version_at e src = inr v -> v < 16320 -> len src < 40 ->
        __init__ (open src) = inl TruncatedInputError)
  /\ (forall src e h k,
        read_header src = inr (e, h) ->
        0 <= Z.of_nat k < num_files h ->
        reaches e src h k = true ->
        remaining src (h_entries h + Z.of_nat k * 20) < 20 ->
        __init__ (open src) = inl TruncatedInputError)
  /\ (forall src rs,
        parse_bundle src = inr rs ->
        exists e h,
          read_header src = inr (e, h)
          /\ 40 <= len src
          /\ forall k, 0 <= Z.of_nat k < num_files h ->
             h_entries h + Z.of_nat k * 20 + 20 <= len src
             /\ h_names h + name_cursor src (h_names h) k + 255
                <= len src).
Proof.
  assert (Hinit : forall src x,
            parse_bundle src = inl x -> __init__ (open src) = inl x).
  { intros src x. unfold parse_bundle.
    destruct (__init__ (open src)); congruence. }
  repeat apply conj.
  - intros fmt [[src p] e objs]. cbn [file content tell].
    apply unpack_short.
  - intros src Hlen. apply Hinit.
    rewrite parse_bundle_spec. unfold parse_spec, unpack_from.
    rewrite read_magic, length_firstn.
    change (calcsize [fmt_s 4]) with 4%nat.
    destruct (_ <? _)%nat eqn:E; [reflexivity|].
    apply Nat.ltb_ge in E. unfold len in Hlen. lia.
  - intros src e Hm Hlen. apply Hinit.
    rewrite parse_bundle_spec, (parse_spec_recognized _ _ Hm).
    unfold version_at. rewrite unpack_at_short; [reflexivity|lia|].
    apply remaining_short; [lia|reflexivity|].
    change (Z.of_nat (calcsize [fmt_H])) with 2. lia.
  - intros src e v Hm Hv Hlt Hlen. apply Hinit.
    rewrite parse_bundle_spec, (parse_spec_recognized _ _ Hm), Hv.
    destruct (Z.geb_spec v 16320) as [Hge|_]; [lia|].
    unfold parse_v1_spec, header_at.
    rewrite unpack_at_short; [reflexivity|lia|].
    apply remaining_short; [lia|reflexivity|].
    change (Z.of_nat (calcsize (repeat fmt_I 7))) with 28. lia.
  - intros src e h k Hhdr Hk Hreach Hshort. apply Hinit.
    apply (parse_stops _ _ _ _ _ Hhdr Hk Hreach).
    destruct (read_header_inv _ _ _ Hhdr) as (_ & _ & Hh).
    destruct (header_at_bound _ _ _ Hh) as (He & _).
    apply entry_at_short_entry; [unfold u32 in He; lia|lia|assumption].
  - intros src rs Hparse.
    destruct (parse_success_header _ _ Hparse) as (e & h & Hhdr & Hwalk).
    exists e, h. split; [assumption|].
    destruct (read_header_inv _ _ _ Hhdr) as (_ & _ & Hh).
    destruct (header_at_bound _ _ _ Hh) as (He & Hn & _).
    unfold u32 in He, Hn.
    split.
    + destruct (header_at_inv _ _ _ Hh) as (f3 & f5 & f6 & Hfields).
      apply unpack_at_ok in Hfields; [|lia].
      change (Z.of_nat (calcsize (repeat fmt_I 7))) with 28 in Hfields.
      apply remaining_full in Hfields; lia.
    + intros k Hk.
      destruct (walk_record _ _ _ _ (Z.of_nat k) Hh Hwalk Hk)
        as (r & Hnth & Hentry).
      rewrite Nat2Z.id in Hentry, Hnth.
      destruct (entry_at_inv _ _ _ _ _ _ _ Hentry)
        as (o & no & s & cs & c & u & Hread & _).
      split.
      * unfold entry_read, size_of_file_record in Hread.
        apply unpack_at_ok in Hread; [|lia].
        change (Z.of_nat (calcsize (repeat fmt_I 5))) with 20 in Hread.
        apply remaining_full in Hread; lia.
      * pose proof (name_cursor_nonneg src h k) as Hcur.
        destruct (walk_name _ _ _ _ _ _ _ Hwalk Hnth ltac:(lia))
          as (Hfull & _).
        apply remaining_full in Hfull; lia.
Qed.

Lemma short_read_is_fatal_witness :
  unpack [fmt_H] (mkParser (mkIO (b "LPAK") 4) BigEndian [])
  = inl TruncatedInputError
  /\ __init__ (open (b "LPA")) = inl TruncatedInputError
  /\ __init__ (open (b "LPAK")) = inl TruncatedInputError
  /\ __init__ (open (firstn 30 three_files_be)) = inl TruncatedInputError
  /\ __init__ (open cut_in_fifth) = inl TruncatedInputError
  /\ (exists e h,
        read_header three_files_be = inr (e, h)
        /\ 40 <= len three_files_be
        /\ forall k, 0 <= Z.of_nat k < num_files h ->
           h_entries h + Z.of_nat k * 20 + 20 <= len three_files_be
           /\ h_names h + name_cursor three_files_be (h_names h) k + 255
              <= len three_files_be).
Proof.
  pose proof short_read_is_fatal as (H1 & H2 & H3 & H4 & H5 & H6).
  repeat apply conj.
  - apply H1; vm_compute; [discriminate|reflexivity].
  - apply H2. vm_compute. reflexivity.
  - apply (H3 _ BigEndian); vm_compute; reflexivity.
  - apply (H4 _ BigEndian 1); vm_compute; reflexivity.
  - apply (H5 cut_in_fifth BigEndian (mkHeader 305 40 405 100) 4%nat).
    + vm_compute. reflexivity.
    + vm_compute. split; [discriminate|reflexivity].
    + vm_compute. reflexivity.
    + vm_compute. reflexivity.
  - apply (H6 three_files_be three_records). vm_compute. reflexivity.
Defined.

(** ** Encoded integers *)

Lemma byte_val_of v : 0 <= v <= 255 -> byte_val (byte_of v) = v.
Proof.
  intros Hv. unfold byte_val, byte_of.
  destruct (Byte.of_N (Z.to_N v)) as [x|] eqn:E.
  - apply Byte.to_of_N in E. lia.
  - apply Byte.of_N_None_iff in E. lia.
Qed.

Lemma length_to_bytes_big n : forall v, List.length (to_bytes_big n v) = n.
Proof.
  induction n as [|n IH]; intros v; simpl; [reflexivity|].
  rewrite length_app, IH. simpl. lia.
Qed.

Lemma length_int_to_bytes e n v : List.length (int_to_bytes e n v) = n.
Proof.
  destruct e; simpl; [rewrite length_rev|]; apply length_to_bytes_big.
Qed.

Lemma from_to_bytes_big n : forall v,
  0 <= v < 256 ^ Z.of_nat n -> from_bytes_big (to_bytes_big n v) = v.
Proof.
  induction n as [|n IH]; intros v Hv.
  - simpl in *. unfold from_bytes_big. simpl. lia.
  - cbn [to_bytes_big]. unfold from_bytes_big in *.
    rewrite fold_left_app. cbn [fold_left].
    rewrite Nat2Z.inj_succ, Z.pow_succ_r in Hv by lia.
    rewrite IH.
    + rewrite byte_val_of.
      * pose proof (Z.div_mod v 256 ltac:(lia)). lia.
      * pose proof (Z.mod_pos_bound v 256 ltac:(lia)). lia.
    + split; [apply Z.div_pos; lia|].
      apply Z.div_lt_upper_bound; lia.
Qed.

Lemma int_from_to_bytes e n v :
  0 <= v < 256 ^ Z.of_nat n -> int_from_bytes e (int_to_bytes e n v) = v.
Proof.
  intros Hv. destruct e; simpl; [rewrite rev_involutive|];
    now apply from_to_bytes_big.
Qed.

Lemma firstn_exact {A} (l r : list A) n :
  List.length l = n -> firstn n (l ++ r) = l.
Proof.
  intros <-. rewrite firstn_app, Nat.sub_diag, firstn_all. simpl.
  apply app_nil_r.
Qed.

Lemma skipn_exact {A} (l r : list A) n :
  List.length l = n -> skipn n (l ++ r) = r.
Proof.
  intros <-. rewrite skipn_app, Nat.sub_diag, skipn_all. reflexivity.
Qed.

(** An unsigned 32-bit field decodes to the value it was packed from, in
    either byte order. *)
Lemma decode_I_cons e fmt v rest :
  u32 v ->
  decode_fields e (fmt_I :: fmt) (int_to_bytes e 4 v ++ rest)
  = (v, decode_fields e fmt rest).
Proof.
  intros Hv. cbn [decode_fields code_size decode_code].
  rewrite (firstn_exact _ _ 4), (skipn_exact _ _ 4)
    by apply length_int_to_bytes.
  rewrite int_from_to_bytes; [reflexivity|].
  unfold u32 in Hv. change (256 ^ Z.of_nat 4) with 4294967296. lia.
Qed.

Lemma decode_H_cons e fmt v rest :
  u16 v ->
  decode_fields e (fmt_H :: fmt) (int_to_bytes e 2 v ++ rest)
  = (v, decode_fields e fmt rest).
Proof.
  intros Hv. cbn [decode_fields code_size decode_code].
  rewrite (firstn_exact _ _ 2), (skipn_exact _ _ 2)
    by apply length_int_to_bytes.
  rewrite int_from_to_bytes; [reflexivity|].
  unfold u16 in Hv. change (256 ^ Z.of_nat 2) with 65536. lia.
Qed.

Lemma length_pack_I e vs :
  List.length (pack_I e vs) = (4 * List.length vs)%nat.
Proof.
  unfold pack_I. induction vs as [|v vs IH]; simpl; [reflexivity|].
  rewrite length_app, length_int_to_bytes, IH. lia.
Qed.

(** A read of exactly the middle of three pieces. *)
Lemma read_at_middle (pre mid post : bytes) pos n :
  pos = len pre -> n = len mid ->
  read_at (pre ++ mid ++ post) pos n = mid.
Proof.
  intros -> ->. rewrite read_at_eq. unfold len. rewrite !Nat2Z.id.
  rewrite (skipn_exact _ _ _ eq_refl). now apply firstn_exact.
Qed.

(** A read that starts in the last of two pieces. *)
Lemma read_at_tail (pre post : bytes) pos n :
  0 <= pos ->
  read_at (pre ++ post) (len pre + pos) n = read_at post pos n.
Proof.
  intros Hpos. rewrite !read_at_eq. f_equal. unfold len.
  rewrite Z2Nat.inj_add, Nat2Z.id by lia.
  rewrite skipn_app, skipn_all2 by lia.
  replace (List.length pre + Z.to_nat pos - List.length pre)%nat
    with (Z.to_nat pos) by lia.
  reflexivity.
Qed.

(** ** The two encodings of a bundle *)

Section Encoded.
Variables (e : byteorder) (x : Bundle).
Hypothesis Hwf : wf_bundle x.

Lemma layout_bounds :
  u32 (start_of_file_entries x) /\ u32 (start_of_file_names x)
  /\ u32 (start_of_data x) /\ u32 (size_of_file_entries x).
Proof.
  pose proof (wf_layout x Hwf) as Hd.
  unfold u32, start_of_data, start_of_file_names, size_of_file_entries,
    start_of_file_entries, len in *.
  lia.
Qed.

Lemma length_magic : List.length (magic_of e) = 4%nat.
Proof. now destruct e. Qed.

Lemma length_encode_header : len (encode_header e x) = 40.
Proof.
  unfold len, encode_header, header_bytes.
  rewrite !length_app, length_magic, length_int_to_bytes, length_pack_I.
  rewrite (wf_4_5 x Hwf), (wf_8_11 x Hwf). reflexivity.
Qed.

Lemma length_encode_entries es :
  len (encode_entries e es) = 20 * len es.
Proof.
  unfold len, encode_entries. induction es as [|y es IH].
  - reflexivity.
  - cbn [map List.concat List.length].
    rewrite length_app, length_pack_I. cbn [entry_fields List.length]. lia.
Qed.

Lemma encode_magic : firstn 4 (encode e x) = magic_of e.
Proof.
  unfold encode, encode_header, header_bytes. rewrite <- !app_assoc.
  apply firstn_exact, length_magic.
Qed.

Lemma encode_version : version_at e (encode e x) = inr (version x).
Proof.
  unfold version_at, unpack_at, unpack_from.
  change (Z.of_nat (calcsize [fmt_H])) with 2.
  change (calcsize [fmt_H]) with 2%nat.
  assert (Hread : read_at (encode e x) 6 2 = int_to_bytes e 2 (version x)).
  { unfold encode, encode_header, header_bytes.
    replace (((magic_of e ++ bytes_4_5 x ++ int_to_bytes e 2 (version x)
               ++ bytes_8_11 x ++ pack_I e _) ++ _))
      with ((magic_of e ++ bytes_4_5 x)
            ++ int_to_bytes e 2 (version x)
            ++ (bytes_8_11 x
                ++ pack_I e [start_of_file_entries x; start_of_file_names x;
                             start_of_data x; unused_3 x;
                             size_of_file_entries x; unused_5 x; unused_6 x])
               ++ gap x ++ encode_entries e (entries x) ++ name_table x
               ++ data_region x)
      by (now rewrite <- !app_assoc).
    apply read_at_middle; unfold len.
    - rewrite length_app, length_magic, (wf_4_5 x Hwf). reflexivity.
    - now rewrite length_int_to_bytes. }
  rewrite Hread, length_int_to_bytes. cbn [Nat.ltb Nat.leb].
  rewrite <- (app_nil_r (int_to_bytes e 2 (version x))).
  rewrite decode_H_cons by apply (wf_version x Hwf). reflexivity.
Qed.

Lemma encode_header_at : header_at e (encode e x) = inr (header_of x).
Proof.
  unfold header_at, unpack_at, unpack_from.
  change (Z.of_nat (calcsize (repeat fmt_I 7))) with 28.
  change (calcsize (repeat fmt_I 7)) with 28%nat.
  set (fields := [start_of_file_entries x; start_of_file_names x;
                  start_of_data x; unused_3 x; size_of_file_entries x;
                  unused_5 x; unused_6 x]).
  assert (Hread : read_at (encode e x) 12 28 = pack_I e fields).
  { unfold encode, encode_header, header_bytes. fold fields.
    replace ((magic_of e ++ bytes_4_5 x ++ int_to_bytes e 2 (version x)
              ++ bytes_8_11 x ++ pack_I e fields) ++ _)
      with ((magic_of e ++ bytes_4_5 x ++ int_to_bytes e 2 (version x)
             ++ bytes_8_11 x)
            ++ pack_I e fields
            ++ gap x ++ encode_entries e (entries x) ++ name_table x
               ++ data_region x)
      by (now rewrite <- !app_assoc).
    apply read_at_middle; unfold len.
    - rewrite !length_app, length_magic, length_int_to_bytes,
        (wf_4_5 x Hwf), (wf_8_11 x Hwf). reflexivity.
    - now rewrite length_pack_I. }
  rewrite Hread, length_pack_I. cbn [Nat.ltb Nat.leb fields List.length
                                     Nat.mul Nat.add].
  destruct layout_bounds as (H0 & H1 & H2 & H4).
  destruct (wf_unused x Hwf) as (H3 & H5 & H6).
  unfold fields, pack_I. cbn [map List.concat repeat].
  do 5 (rewrite decode_I_cons by assumption). reflexivity.
Qed.

(** The header of an encoded bundle, in its own byte order. *)
Lemma read_header_encode :
  read_header (encode e x)
  = if version x >=? 16320 then inl UnsupportedVersionError
    else inr (e, (header_of x)).
Proof.
  unfold read_header.
  assert (Hlen : (4 <= List.length (encode e x))%nat).
  { apply (magic_length _ e), encode_magic. }
  rewrite (unpack_magic _ Hlen), encode_magic.
  rewrite (proj2 (detect_inv _ _) eq_refl), encode_version.
  destruct (version x >=? 16320); [reflexivity|].
  now rewrite encode_header_at.
Qed.

(** Entry [i] of the table reads back as the entry encoded. *)
Lemma entry_read_encode i y :
  nth_error (entries x) i = Some y ->
  entry_read e (encode e x) (header_of x) (Z.of_nat i)
  = inr (entry_offset y, (entry_name_offset y, (entry_size y,
           (entry_compressed_size y, (entry_compressed y, tt))))).
Proof.
  intros Hnth.
  destruct (nth_error_split _ _ Hnth) as (l1 & l2 & Hes & Hl1).
  assert (Hy : wf_entry y).
  { pose proof (wf_entries x Hwf) as Hall. rewrite Forall_forall in Hall.
    apply Hall. eapply nth_error_In, Hnth. }
  unfold entry_read, unpack_at, unpack_from, header_of. cbn [h_entries].
  change (Z.of_nat (calcsize (repeat fmt_I 5))) with 20.
  change (calcsize (repeat fmt_I 5)) with 20%nat.
  assert (Hread : read_at (encode e x)
                    (start_of_file_entries x
                     + Z.of_nat i * size_of_file_record) 20
                  = pack_I e (entry_fields y)).
  { unfold encode. rewrite Hes. unfold encode_entries.
    rewrite map_app, concat_app. cbn [map List.concat].
    fold (encode_entries e l1). fold (encode_entries e l2).
    replace (encode_header e x ++ gap x
             ++ (encode_entries e l1
                 ++ pack_I e (entry_fields y) ++ encode_entries e l2)
             ++ name_table x ++ data_region x)
      with ((encode_header e x ++ gap x ++ encode_entries e l1)
            ++ pack_I e (entry_fields y)
            ++ encode_entries e l2 ++ name_table x ++ data_region x)
      by (now rewrite <- !app_assoc).
    apply read_at_middle.
    - pose proof length_encode_header as Hh.
      pose proof (length_encode_entries l1) as He.
      unfold len in *. rewrite !length_app.
      unfold start_of_file_entries, size_of_file_record, len. lia.
    - unfold len. now rewrite length_pack_I. }
  rewrite Hread, length_pack_I.
  cbn [entry_fields List.length Nat.mul Nat.add Nat.ltb Nat.leb].
  unfold wf_entry, entry_fields in Hy.
  inversion Hy as [|? ? H0 Hy1]; subst.
  inversion Hy1 as [|? ? H1 Hy2]; subst.
  inversion Hy2 as [|? ? H2 Hy3]; subst.
  inversion Hy3 as [|? ? H3 Hy4]; subst.
  inversion Hy4 as [|? ? H4 _]; subst.
  unfold pack_I, entry_fields. cbn [map List.concat repeat].
  do 5 (rewrite decode_I_cons by assumption). reflexivity.
Qed.

(** A read in the name table or after it sees raw bytes only. *)
Lemma name_read_encode cur :
  0 <= cur ->
  read_at (encode e x) (h_names (header_of x) + cur) 255
  = read_at (name_table x ++ data_region x) cur 255.
Proof.
  intros Hcur. unfold encode.
  replace (encode_header e x ++ gap x ++ encode_entries e (entries x)
           ++ name_table x ++ data_region x)
    with ((encode_header e x ++ gap x ++ encode_entries e (entries x))
          ++ name_table x ++ data_region x)
    by (now rewrite <- !app_assoc).
  replace (h_names (header_of x))
    with (len (encode_header e x ++ gap x
               ++ encode_entries e (entries x))).
  - now apply read_at_tail.
  - pose proof length_encode_header as Hh.
    pose proof (length_encode_entries (entries x)) as He.
    unfold header_of, len in *. cbn [h_names]. rewrite !length_app.
    unfold start_of_file_names, start_of_file_entries,
      size_of_file_entries, len.
    lia.
Qed.
End Encoded.

Lemma entry_at_encode x i y cur :
  wf_bundle x ->
  nth_error (entries x) i = Some y ->
  0 <= cur ->
  entry_at BigEndian (encode BigEndian x) (header_of x) (Z.of_nat i) cur
  = entry_at LittleEndian (encode LittleEndian x) (header_of x)
             (Z.of_nat i) cur.
Proof.
  intros Hwf Hnth Hcur. unfold entry_at.
  rewrite !(entry_read_encode _ _ Hwf _ _ Hnth).
  unfold name_read, unpack_at, unpack_from.
  change (Z.of_nat (calcsize [fmt_s 255])) with 255.
  rewrite !(name_read_encode _ _ Hwf) by assumption.
  rewrite !decode_fields_s. reflexivity.
Qed.

(** The walk over the entries of a bundle does not depend on the byte
    order of its file. *)
Lemma walk_encode x n : forall i cur,
  wf_bundle x ->
  0 <= cur ->
  (i + n <= List.length (entries x))%nat ->
  walk BigEndian (encode BigEndian x) (header_of x) (Z.of_nat i) n cur
  = walk LittleEndian (encode LittleEndian x) (header_of x)
         (Z.of_nat i) n cur.
Proof.
  induction n as [|n IH]; intros i cur Hwf Hcur Hi; [reflexivity|].
  cbn [walk].
  destruct (nth_error (entries x) i) as [y|] eqn:Hnth;
    [|apply nth_error_None in Hnth; lia].
  rewrite (entry_at_encode _ _ _ _ Hwf Hnth Hcur).
  destruct (entry_at LittleEndian _ _ _ cur) as [err|[o cur']] eqn:E;
    [reflexivity|].
  destruct (entry_at_inv _ _ _ _ _ _ _ E)
    as (? & ? & ? & ? & ? & ? & _ & _ & _ & _ & ->).
  replace (Z.of_nat i + 1) with (Z.of_nat (S i)) by lia.
  rewrite IH; [reflexivity|assumption| |lia].
  pose proof (next_name_pos (encode LittleEndian x) (header_of x) cur Hcur).
  lia.
Qed.

Lemma parse_encode e x :
  wf_bundle x ->
  parse_bundle (encode e x)
  = if version x >=? 16320 then inl UnsupportedVersionError
    else walk e (encode e x) (header_of x) 0 (List.length (entries x)) 0.
Proof.
  intros Hwf.
  rewrite parse_bundle_spec,
    (parse_spec_recognized _ e (encode_magic e x)),
    (encode_version _ _ Hwf).
  destruct (version x >=? 16320); [reflexivity|].
  unfold parse_v1_spec. rewrite (encode_header_at _ _ Hwf).
  f_equal. unfold num_files, header_of, size_of_file_entries,
    size_of_file_record, len.
  cbn [h_size]. rewrite Z.mul_comm, Z.div_mul by lia. apply Nat2Z.id.
Qed.

(** C9: the file of a bundle with tag [LPAK] and big-endian fields and
    its file with tag [KAPL] and little-endian fields parse to the same
    result: the same records in the same order, or the same exception. *)
Theorem byte_order_independence (x : Bundle) :
  wf_bundle x ->
  firstn 4 (encode BigEndian x) = b "LPAK"
  /\ firstn 4 (encode LittleEndian x) = b "KAPL"
  /\ parse_bundle (encode BigEndian x)
     = parse_bundle (encode LittleEndian x).
Proof.
  intros Hwf. split; [|split].
  - apply (encode_magic BigEndian).
  - apply (encode_magic LittleEndian).
  - rewrite !parse_encode by assumption.
    destruct (version x >=? 16320); [reflexivity|].
    apply (walk_encode x _ O 0 Hwf); lia.
Qed.

Lemma byte_order_independence_witness :
  firstn 4 three_files_be = b "LPAK"
  /\ firstn 4 three_files_le = b "KAPL"
  /\ parse_bundle three_files_be = parse_bundle three_files_le.
Proof.
  apply (byte_order_independence (three_files 0 6 13)).
  constructor.
  - reflexivity.
  - reflexivity.
  - unfold u16. cbn. lia.
  - unfold u32. cbn. lia.
  - repeat constructor; cbn; lia.
  - unfold u32. vm_compute. split; [discriminate|reflexivity].
Defined.

(** * Further properties of the parser *)

(** ** An empty entry table *)

(** With fewer than 20 bytes of entry table announced there is no entry:
    the header alone decides, no entry or name is read, and the parse
    gives the empty list. It gives the empty list in no other case. *)
Theorem empty_table_iff (src : bytes) (e : byteorder) (h : Header) :
  read_header src = inr (e, h) ->
  (parse_bundle src = inr [] <-> h_size h < 20).
Proof.
  intros Hhdr.
  destruct (read_header_inv _ _ _ Hhdr) as (_ & _ & Hh).
  destruct (header_at_bound _ _ _ Hh) as (_ & _ & _ & Hs).
  unfold u32 in Hs.
  rewrite (parse_after_header _ _ _ Hhdr).
  unfold num_files, size_of_file_record. split.
  - intros Hwalk. apply walk_length in Hwalk. cbn [List.length] in Hwalk.
    destruct (Z.lt_ge_cases (h_size h) 20) as [Hlt|Hge]; [assumption|].
    assert (1 <= h_size h / 20) by (apply Z.div_le_lower_bound; lia).
    lia.
  - intros Hlt. rewrite Z.div_small by lia. reflexivity.
Qed.

Lemma empty_table_iff_witness :
  parse_bundle (header_bytes LittleEndian (zeros 2) 7 (zeros 4)
                  [0; 0; 0; 0; 19; 0; 0]) = inr [].
Proof.
  apply (proj2 (empty_table_iff
                  (header_bytes LittleEndian (zeros 2) 7 (zeros 4)
                     [0; 0; 0; 0; 19; 0; 0])
                  LittleEndian (mkHeader 0 0 0 19) eq_refl)).
  reflexivity.
Defined.

(** ** Bytes after the last read *)

Lemma read_at_app src extra pos (n : nat) :
  0 <= pos ->
  Z.of_nat n <= remaining src pos ->
  read_at (src ++ extra) pos (Z.of_nat n) = read_at src pos (Z.of_nat n).
Proof.
  intros Hpos Hfull. rewrite !read_at_eq, Nat2Z.id, skipn_app, firstn_app.
  unfold remaining, len in Hfull.
  replace (n - List.length (skipn (Z.to_nat pos) src))%nat with O
    by (rewrite length_skipn; lia).
  cbn [firstn]. apply app_nil_r.
Qed.

Lemma unpack_at_app e src extra pos fmt t :
  0 <= pos ->
  unpack_at e src pos fmt = inr t ->
  unpack_at e (src ++ extra) pos fmt = inr t.
Proof.
  intros Hpos Hok. pose proof (unpack_at_ok _ _ _ _ _ Hpos Hok) as Hfull.
  unfold unpack_at in *. now rewrite read_at_app.
Qed.

Lemma entry_at_app e src extra h i cur r c :
  0 <= h_entries h -> 0 <= h_names h -> 0 <= i -> 0 <= cur ->
  entry_at e src h i cur = inr (r, c) ->
  entry_at e (src ++ extra) h i cur = inr (r, c).
Proof.
  intros He Hn Hi Hcur. unfold entry_at, entry_read, name_read.
  assert (Hpe : 0 <= h_entries h + i * size_of_file_record)
    by (unfold size_of_file_record; lia).
  assert (Hpn : 0 <= h_names h + cur) by lia.
  destruct (unpack_at e src (h_entries h + _) _)
    as [x|t] eqn:E1; [discriminate|].
  rewrite (unpack_at_app _ _ extra _ _ _ Hpe E1).
  destruct t as [o [no [s [cs [c0 u]]]]].
  destruct (unpack_at e src (h_names h + cur) _) as [x|t] eqn:E2;
    [discriminate|].
  rewrite (unpack_at_app _ _ extra _ _ _ Hpn E2).
  trivial.
Qed.

Lemma walk_app e src extra h n : forall i cur rs,
  0 <= h_entries h -> 0 <= h_names h -> 0 <= i -> 0 <= cur ->
  walk e src h i n cur = inr rs ->
  walk e (src ++ extra) h i n cur = inr rs.
Proof.
  induction n as [|n IH]; intros i cur rs He Hn Hi Hcur; cbn [walk];
    [trivial|].
  destruct (entry_at e src h i cur) as [x|[o cur']] eqn:E; [discriminate|].
  rewrite (entry_at_app _ _ extra _ _ _ _ _ He Hn Hi Hcur E).
  destruct (walk e src h (i + 1) n cur') as [x|rs'] eqn:W; [discriminate|].
  destruct (entry_at_inv _ _ _ _ _ _ _ E)
    as (? & ? & ? & ? & ? & ? & _ & _ & _ & _ & Hc).
  pose proof (next_name_pos src h cur Hcur) as Hpos. cbv zeta in Hpos.
  rewrite (IH (i + 1) cur' rs'); [trivial|assumption|assumption|lia| |exact W].
  rewrite Hc. lia.
Qed.

(** A bundle that parses still parses, to the same records, when bytes
    are added at its end: nothing is read relative to the end of the
    file. *)
Theorem trailing_bytes_ignored (src extra : bytes) (rs : list FileObject) :
  parse_bundle src = inr rs ->
  parse_bundle (src ++ extra) = inr rs.
Proof.
  intros Hparse.
  destruct (parse_success_inv _ _ Hparse)
    as (e & v & h & Hm & Hv & Hlt & Hh & Hwalk).
  destruct (header_at_bound _ _ _ Hh) as (He & Hn & _).
  unfold u32 in He, Hn.
  assert (Hm' : firstn 4 (src ++ extra) = magic_of e).
  { rewrite firstn_app.
    replace (4 - List.length src)%nat with O
      by (pose proof (magic_length _ _ Hm); lia).
    cbn [firstn]. now rewrite app_nil_r. }
  rewrite parse_bundle_spec, (parse_spec_recognized _ _ Hm').
  unfold version_at in *.
  destruct (unpack_at e src 6 [fmt_H]) as [x|[v' u]] eqn:Ev; [discriminate|].
  assert (H6 : 0 <= 6) by lia. assert (H12 : 0 <= 12) by lia.
  rewrite (unpack_at_app _ _ extra _ _ _ H6 Ev).
  injection Hv as ->.
  destruct (Z.geb_spec v 16320) as [Hge|_]; [lia|].
  unfold parse_v1_spec, header_at in *.
  destruct (unpack_at e src 12 (repeat fmt_I 7)) as [x|t] eqn:Eh;
    [discriminate|].
  rewrite (unpack_at_app _ _ extra _ _ _ H12 Eh).
  destruct t as [f0 [f1 [f2 [f3 [f4 [f5 [f6 u']]]]]]].
  injection Hh as <-.
  apply walk_app; try assumption; lia.
Qed.

Lemma trailing_bytes_ignored_witness :
  parse_bundle (three_files_be ++ b "trailer") = inr three_records.
Proof.
  apply (trailing_bytes_ignored three_files_be (b "trailer") three_records).
  vm_compute. reflexivity.
Defined.

(** ** [unpack], and the exceptions of a parse *)

(** [unpack] succeeds exactly when the file holds as many bytes from its
    position on as the format takes; it then leaves the position that
    many bytes further and the rest of the parser as it was. *)
Theorem unpack_succeeds_iff (fmt : struct_format) (self : LPAKParser) :
  0 <= tell (file self) ->
  (Z.of_nat (calcsize fmt)
   <= remaining (content (file self)) (tell (file self))
   <-> exists t self',
         unpack fmt self = inr (t, self')
         /\ tell (file self') = tell (file self) + Z.of_nat (calcsize fmt)
         /\ content (file self') = content (file self)
         /\ endianness self' = endianness self
         /\ file_objects self' = file_objects self).
Proof.
  destruct self as [[src p] e objs]. cbn [file content tell endianness
                                          file_objects].
  intros Hp. split.
  - intros Hfull.
    pose proof (proj2 (read_at_full src p (calcsize fmt) Hp) Hfull) as Hlen.
    unfold unpack, bind, file_read, io_read, lift, unpack_from.
    cbn [file content tell endianness file_objects]. rewrite Hlen.
    eexists _, _. split; [reflexivity|].
    cbn [file content tell endianness file_objects].
    repeat split. apply Nat.ltb_ge in Hlen.
    pose proof (length_read_at src p (Z.of_nat (calcsize fmt))) as Hl.
    unfold len. lia.
  - intros (t & self' & Hok & _).
    destruct (Z.le_gt_cases (Z.of_nat (calcsize fmt)) (remaining src p))
      as [Hle|Hgt]; [assumption|].
    rewrite (unpack_short fmt src p e objs Hp) in Hok by lia.
    discriminate.
Qed.

Lemma unpack_succeeds_iff_witness :
  exists t self',
    unpack [fmt_H; fmt_I] (mkParser (mkIO three_files_be 6) BigEndian [])
    = inr (t, self')
    /\ tell (file self') = 6 + Z.of_nat (calcsize [fmt_H; fmt_I])
    /\ content (file self') = three_files_be
    /\ endianness self' = BigEndian
    /\ file_objects self' = [].
Proof.
  apply (proj1 (unpack_succeeds_iff [fmt_H; fmt_I]
                  (mkParser (mkIO three_files_be 6) BigEndian [])
                  ltac:(discriminate))).
  vm_compute. discriminate.
Defined.

(** A parse raises one of four exceptions and no other: the two
    [ValueError]s of the parser, [struct.error] and
    [UnicodeDecodeError]. *)
Theorem parse_exceptions (src : bytes) (x : exn) :
  parse_bundle src = inl x ->
  x = ValueError "Not a LPAK file"
  \/ x = ValueError "Post-Full Throttle file format no supported"
  \/ x = struct_error
  \/ x = UnicodeDecodeError.
Proof.
  rewrite parse_bundle_spec. unfold parse_spec, unpack_from.
  destruct (_ <? _)%nat; [intros [= <-]; auto|].
  rewrite decode_fields_s. unfold detect.
  destruct (bytes_eqb _ (b "LPAK")).
  - unfold version_at.
    destruct (unpack_at BigEndian src 6 [fmt_H]) as [y|[v u]] eqn:Ev.
    + intros [= <-]. apply unpack_at_error in Ev. auto.
    + destruct (v >=? 16320); [intros [= <-]; auto|].
      intros Hv1. destruct (parse_v1_error _ _ _ Hv1); auto.
  - destruct (bytes_eqb _ (b "KAPL")); [|intros [= <-]; auto].
    unfold version_at.
    destruct (unpack_at LittleEndian src 6 [fmt_H]) as [y|[v u]] eqn:Ev.
    + intros [= <-]. apply unpack_at_error in Ev. auto.
    + destruct (v >=? 16320); [intros [= <-]; auto|].
      intros Hv1. destruct (parse_v1_error _ _ _ Hv1); auto.
Qed.

Lemma parse_exceptions_witness :
  UnicodeDecodeError = ValueError "Not a LPAK file"
  \/ UnicodeDecodeError
     = ValueError "Post-Full Throttle file format no supported"
  \/ UnicodeDecodeError = struct_error
  \/ UnicodeDecodeError = UnicodeDecodeError.
Proof.
  apply (parse_exceptions bad_name UnicodeDecodeError).
  vm_compute. reflexivity.
Defined.

(** ** What a decoded name can be *)

Lemma byte_val_zero x : byte_val x = 0 -> x = x00.
Proof.
  unfold byte_val. intros Hx.
  assert (Hn : Byte.to_N x = Byte.to_N x00) by (cbn; lia).
  apply (f_equal Byte.of_N) in Hn. rewrite !Byte.of_to_N in Hn.
  congruence.
Qed.

Lemma option_map_cons_inv (c : Z) (o : option str) (t : str) :
  option_map (cons c) o = Some t ->
  exists t', o = Some t' /\ t = c :: t'.
Proof.
  destruct o as [t'|]; [|discriminate]. intros [= <-]. now exists t'.
Qed.

Lemma in_range_spec lo hi x : in_range lo hi x = true <-> lo <= x <= hi.
Proof. unfold in_range. rewrite andb_true_iff, !Z.leb_le. tauto. Qed.

Lemma is_cont_spec x : is_cont x = true <-> 128 <= x <= 191.
Proof. unfold is_cont. rewrite andb_true_iff, !Z.leb_le. tauto. Qed.

Lemma text_of_cons (c : Z) (pre rest : bytes) (t : str) :
  pre <> [] ->
  is_scalar c ->
  (~ In x00 pre -> c <> 0) ->
  text_of rest t ->
  text_of (pre ++ rest) (c :: t).
Proof.
  intros Hpre Hc Hnz (Hlen & Hsc & Hnull & _). repeat split.
  - rewrite length_app. cbn [List.length].
    destruct pre; [contradiction|]. cbn [List.length]. lia.
  - constructor; assumption.
  - intros Hno [Hz|Hin].
    + apply Hnz; [|now symmetry]. intros Hp. apply Hno, in_or_app. now left.
    + apply Hnull; [|assumption]. intros Hp. apply Hno, in_or_app.
      now right.
  - discriminate.
Qed.

(** Strict UTF-8 gives Unicode scalar values, no more of them than
    bytes, and a NUL only from a null byte. *)
Lemma utf8_decode_text n : forall bs t,
  (List.length bs <= n)%nat ->
  utf8_decode bs = Some t ->
  text_of bs t.
Proof.
  induction n as [|n IH]; intros bs t Hn Hdec.
  - destruct bs; [|cbn in Hn; lia]. cbn in Hdec. injection Hdec as <-.
    repeat split; auto.
  - destruct bs as [|b0 r0].
    { cbn in Hdec. injection Hdec as <-. repeat split; auto. }
    cbn [utf8_decode] in Hdec. cbn [List.length] in Hn.
    pose proof (byte_val_range b0) as Hb0.
    destruct (Z.ltb_spec (byte_val b0) 128) as [H0|H0].
    { apply option_map_cons_inv in Hdec as (t' & Hrec & ->).
      apply (text_of_cons _ [b0]); [discriminate| | |apply IH; [lia|exact Hrec]].
      - unfold is_scalar. lia.
      - intros Hno Hz. apply Hno. left. now apply byte_val_zero. }
    destruct r0 as [|b1 r1]; [discriminate|].
    cbn [List.length] in Hn.
    pose proof (byte_val_range b1) as Hb1.
    destruct (in_range 194 223 (byte_val b0)) eqn:H2.
    { apply in_range_spec in H2.
      destruct (is_cont (byte_val b1)) eqn:Hc1; [|discriminate].
      apply is_cont_spec in Hc1.
      apply option_map_cons_inv in Hdec as (t' & Hrec & ->).
      apply (text_of_cons _ [b0; b1]);
        [discriminate| | |apply IH; [lia|exact Hrec]].
      - unfold is_scalar. lia.
      - intros _. lia. }
    destruct r1 as [|b2 r2]; [discriminate|].
    cbn [List.length] in Hn.
    pose proof (byte_val_range b2) as Hb2.
    destruct (in_range 224 239 (byte_val b0)) eqn:H3.
    { apply in_range_spec in H3.
      destruct (in_range _ _ (byte_val b1) && is_cont (byte_val b2))
        eqn:Hc; [|discriminate].
      apply andb_true_iff in Hc as [Hc1 Hc2].
      apply in_range_spec in Hc1. apply is_cont_spec in Hc2.
      apply option_map_cons_inv in Hdec as (t' & Hrec & ->).
      apply (text_of_cons _ [b0; b1; b2]);
        [discriminate| | |apply IH; [lia|exact Hrec]].
      - unfold is_scalar.
        destruct (Z.eqb_spec (byte_val b0) 224);
          destruct (Z.eqb_spec (byte_val b0) 237); lia.
      - intros _.
        destruct (Z.eqb_spec (byte_val b0) 224);
          destruct (Z.eqb_spec (byte_val b0) 237); lia. }
    destruct r2 as [|b3 r3]; [discriminate|].
    cbn [List.length] in Hn.
    pose proof (byte_val_range b3) as Hb3.
    destruct (in_range 240 244 (byte_val b0)
              && in_range _ _ (byte_val b1)
              && is_cont (byte_val b2) && is_cont (byte_val b3))
      eqn:Hc; [|discriminate].
    apply andb_true_iff in Hc as [Hc Hc3].
    apply andb_true_iff in Hc as [Hc Hc2].
    apply andb_true_iff in Hc as [Hc0 Hc1].
    apply in_range_spec in Hc0, Hc1. apply is_cont_spec in Hc2, Hc3.
    apply option_map_cons_inv in Hdec as (t' & Hrec & ->).
    apply (text_of_cons _ [b0; b1; b2; b3]);
      [discriminate| | |apply IH; [lia|exact Hrec]].
    + unfold is_scalar.
      destruct (Z.eqb_spec (byte_val b0) 240);
        destruct (Z.eqb_spec (byte_val b0) 244); lia.
    + intros _.
      destruct (Z.eqb_spec (byte_val b0) 240);
        destruct (Z.eqb_spec (byte_val b0) 244); lia.
Qed.

Lemma split0_length bs : (List.length (split0 bs) <= List.length bs)%nat.
Proof.
  induction bs as [|x bs IH]; cbn [split0 List.length]; [lia|].
  destruct (Byte.eqb x x00); cbn [List.length]; lia.
Qed.

Lemma split0_no_null bs : ~ In x00 (split0 bs).
Proof.
  induction bs as [|x bs IH]; cbn [split0]; [auto|].
  destruct (Byte.eqb x x00) eqn:E; [auto|].
  intros [Hx|Hin]; [|auto]. subst x. cbn in E. discriminate.
Qed.

Lemma name_bytes_props src sfn cur :
  (List.length (name_bytes src sfn cur) <= 255)%nat
  /\ ~ In x00 (name_bytes src sfn cur).
Proof.
  unfold name_bytes. split; [|apply split0_no_null].
  pose proof (split0_length (read_at src (sfn + cur) 255)).
  pose proof (length_read_at src (sfn + cur) 255). lia.
Qed.

(** Record [k] of a successful parse and the bytes of its name. *)
Lemma record_name src rs e h k r :
  read_header src = inr (e, h) ->
  walk e src h 0 (Z.to_nat (num_files h)) 0 = inr rs ->
  nth_error rs k = Some r ->
  utf8_decode (name_bytes src (h_names h) (name_cursor src (h_names h) k))
  = Some (filename r).
Proof.
  intros Hhdr Hwalk Hnth.
  pose proof (walk_nth _ _ _ _ _ _ _ _ _ Hwalk Hnth) as Hentry.
  now destruct (entry_at_inv _ _ _ _ _ _ _ Hentry)
    as (? & ? & ? & ? & ? & ? & _ & _ & Hdec & _).
Qed.

(** Every file name a parse gives has at most 255 characters, each a
    Unicode scalar value, none of them NUL. *)
Theorem filenames_are_text (src : bytes) (rs : list FileObject) :
  parse_bundle src = inr rs ->
  forall r, In r rs ->
    (List.length (filename r) <= 255)%nat
    /\ Forall is_scalar (filename r)
    /\ ~ In 0 (filename r).
Proof.
  intros Hparse r Hin.
  destruct (parse_success_header _ _ Hparse) as (e & h & Hhdr & Hwalk).
  destruct (In_nth_error _ _ Hin) as (k & Hnth).
  pose proof (record_name _ _ _ _ _ _ Hhdr Hwalk Hnth) as Hdec.
  destruct (name_bytes_props src (h_names h)
              (name_cursor src (h_names h) k)) as (Hlen & Hno).
  destruct (utf8_decode_text _ _ _ (Nat.le_refl _) Hdec)
    as (Hl & Hsc & Hnz & _).
  repeat split; [lia|assumption|auto].
Qed.

Lemma filenames_are_text_witness :
  (List.length (text "bb.txt") <= 255)%nat
  /\ Forall is_scalar (text "bb.txt")
  /\ ~ In 0 (text "bb.txt").
Proof.
  apply (filenames_are_text three_files_le three_records
           ltac:(vm_compute; reflexivity)
           (mkFileObject 118 4 4 false (text "bb.txt"))).
  right. left. reflexivity.
Defined.

Lemma read_at_head src pos n :
  0 <= pos -> 0 < n ->
  nth_error (read_at src pos n) 0 = nth_error src (Z.to_nat pos).
Proof.
  intros Hpos Hn. rewrite read_at_eq.
  replace (Z.to_nat n) with (S (Z.to_nat (n - 1))) by lia.
  rewrite <- (Nat.add_0_r (Z.to_nat pos)) at 2.
  rewrite <- nth_error_skipn.
  destruct (skipn (Z.to_nat pos) src); reflexivity.
Qed.

Lemma split0_nil_iff bs :
  bs <> [] -> (split0 bs = [] <-> nth_error bs 0 = Some x00).
Proof.
  destruct bs as [|x bs]; [contradiction|]. intros _. cbn [split0 nth_error].
  destruct (Byte.eqb x x00) eqn:E.
  - apply Byte.byte_dec_bl in E. subst. tauto.
  - split; [discriminate|]. intros [= ->]. cbn in E. discriminate.
Qed.

(** A name is empty exactly when the byte at the cursor is null; the
    record is kept, with the empty name, and the cursor moves by one. *)
Theorem empty_name_iff (src : bytes) (rs : list FileObject) :
  parse_bundle src = inr rs ->
  exists e h,
    read_header src = inr (e, h)
    /\ forall k r, nth_error rs k = Some r ->
       let cur := name_cursor src (h_names h) k in
       (filename r = [] <->
        nth_error src (Z.to_nat (h_names h + cur)) = Some x00)
       /\ (filename r = [] ->
           name_cursor src (h_names h) (S k) = cur + 1).
Proof.
  intros Hparse.
  destruct (parse_success_header _ _ Hparse) as (e & h & Hhdr & Hwalk).
  exists e, h. split; [assumption|]. intros k r Hnth cur.
  pose proof (record_name _ _ _ _ _ _ Hhdr Hwalk Hnth) as Hdec.
  fold cur in Hdec.
  destruct (read_header_inv _ _ _ Hhdr) as (_ & _ & Hh).
  destruct (header_at_bound _ _ _ Hh) as (_ & Hn & _). unfold u32 in Hn.
  pose proof (name_cursor_nonneg src h k) as Hcur. fold cur in Hcur.
  destruct (walk_name _ _ _ _ _ _ _ Hwalk Hnth ltac:(lia)) as (_ & Hfull & _).
  fold cur in Hfull.
  assert (Hraw : read_at src (h_names h + cur) 255 <> []).
  { intros Hnil. rewrite Hnil in Hfull. discriminate. }
  assert (Hiff : filename r = [] <-> name_bytes src (h_names h) cur = []).
  { split.
    - intros Hr. rewrite Hr in Hdec.
      now destruct (utf8_decode_text _ _ _ (Nat.le_refl _) Hdec)
        as (_ & _ & _ & Hnil); auto.
    - intros Hnb. rewrite Hnb in Hdec. cbn in Hdec. congruence. }
  split.
  - rewrite Hiff. unfold name_bytes.
    rewrite (split0_nil_iff _ Hraw), read_at_head by lia. reflexivity.
  - intros Hr. apply Hiff in Hr.
    change (name_cursor src (h_names h) (S k))
      with (next_name src (h_names h) cur).
    unfold next_name. rewrite Hr. unfold len. cbn [List.length]. lia.
Qed.

Lemma empty_name_iff_witness :
  exists e h,
    read_header odd_sized = inr (e, h)
    /\ forall k r,
       nth_error [mkFileObject 65 1 1 false []] k = Some r ->
       let cur := name_cursor odd_sized (h_names h) k in
       (filename r = [] <->
        nth_error odd_sized (Z.to_nat (h_names h + cur)) = Some x00)
       /\ (filename r = [] ->
           name_cursor odd_sized (h_names h) (S k) = cur + 1).
Proof.
  apply (empty_name_iff odd_sized [mkFileObject 65 1 1 false []]).
  vm_compute. reflexivity.
Defined.

(** ** Encoded bundles read back *)

Lemma unpack_s e n buf :
  List.length buf = n -> unpack_from e [fmt_s n] buf = inr (buf, tt).
Proof.
  intros Hlen. unfold unpack_from. cbn [calcsize code_size].
  rewrite Nat.add_0_r, Hlen, Nat.ltb_irrefl, decode_fields_s.
  rewrite <- Hlen, firstn_all. reflexivity.
Qed.

Lemma entry_at_value e src h i cur o no s cs c raw t :
  entry_read e src h i = inr (o, (no, (s, (cs, (c, tt))))) ->
  name_read e src h cur = inr (raw, tt) ->
  utf8_decode (split0 raw) = Some t ->
  entry_at e src h i cur
  = inr (mkFileObject (o + h_data h) s cs (negb (c =? 0)) t,
         cur + len (split0 raw) + 1).
Proof.
  intros Hentry Hname Hdec. unfold entry_at, decode.
  now rewrite Hentry, Hname, Hdec.
Qed.

Lemma renumber_length f es : forall i,
  List.length (renumber f i es) = List.length es.
Proof.
  induction es as [|y es IH]; intros i; cbn [renumber List.length];
    [reflexivity|].
  now rewrite IH.
Qed.

Lemma renumber_nth f es : forall i k y,
  nth_error es k = Some y ->
  nth_error (renumber f i es) k = Some (set_name_offset (f (i + k)%nat) y).
Proof.
  induction es as [|z es IH]; intros i k y Hnth.
  - destruct k; discriminate.
  - destruct k as [|k]; cbn [renumber nth_error] in *.
    + injection Hnth as ->. now rewrite Nat.add_0_r.
    + rewrite (IH (S i) k y Hnth). do 3 f_equal. lia.
Qed.

Lemma set_name_offset_wf v y :
  u32 v -> wf_entry y -> wf_entry (set_name_offset v y).
Proof.
  unfold wf_entry, entry_fields, set_name_offset.
  cbn [entry_offset entry_name_offset entry_size entry_compressed_size
       entry_compressed].
  rewrite !Forall_cons_iff. tauto.
Qed.

Lemma renumber_wf f es : forall i,
  (forall j, u32 (f j)) ->
  Forall wf_entry es -> Forall wf_entry (renumber f i es).
Proof.
  induction es as [|y es IH]; intros i Hf Hes; cbn [renumber];
    [constructor|].
  apply Forall_cons_iff in Hes as [Hy Hes].
  constructor; [now apply set_name_offset_wf|now apply IH].
Qed.

Lemma header_of_renumber f x :
  header_of (with_name_offsets f x) = header_of x.
Proof.
  unfold header_of, start_of_data, start_of_file_names,
    size_of_file_entries, start_of_file_entries, with_name_offsets, len.
  cbn [gap entries name_table]. now rewrite renumber_length.
Qed.

Lemma with_name_offsets_wf f x :
  (forall j, u32 (f j)) -> wf_bundle x -> wf_bundle (with_name_offsets f x).
Proof.
  intros Hf Hwf. constructor.
  - apply (wf_4_5 x Hwf).
  - apply (wf_8_11 x Hwf).
  - apply (wf_version x Hwf).
  - apply (wf_unused x Hwf).
  - apply renumber_wf; [assumption|apply (wf_entries x Hwf)].
  - pose proof (header_of_renumber f x) as Hh.
    apply (f_equal h_data) in Hh. unfold header_of in Hh.
    cbn [h_data] in Hh. rewrite Hh. apply (wf_layout x Hwf).
Qed.

Lemma entry_at_renumber e f x i y cur :
  (forall j, u32 (f j)) -> wf_bundle x ->
  nth_error (entries x) i = Some y ->
  0 <= cur ->
  entry_at e (encode e (with_name_offsets f x)) (header_of x)
           (Z.of_nat i) cur
  = entry_at e (encode e x) (header_of x) (Z.of_nat i) cur.
Proof.
  intros Hf Hwf Hnth Hcur.
  pose proof (with_name_offsets_wf f x Hf Hwf) as Hwf'.
  pose proof (renumber_nth f (entries x) O i y Hnth) as Hnth'.
  pose proof (entry_read_encode e _ Hwf' i _ Hnth') as Hread'.
  pose proof (name_read_encode e _ Hwf' cur Hcur) as Hname'.
  rewrite header_of_renumber in Hread', Hname'.
  unfold entry_at. rewrite Hread', (entry_read_encode e x Hwf i y Hnth).
  cbn [set_name_offset entry_offset entry_size entry_compressed_size
       entry_compressed].
  unfold name_read, unpack_at.
  change (Z.of_nat (calcsize [fmt_s 255])) with 255.
  rewrite Hname', (name_read_encode e x Hwf cur Hcur). reflexivity.
Qed.

Lemma walk_renumber e f x n : forall i cur,
  (forall j, u32 (f j)) -> wf_bundle x ->
  0 <= cur ->
  (i + n <= List.length (entries x))%nat ->
  walk e (encode e (with_name_offsets f x)) (header_of x) (Z.of_nat i) n cur
  = walk e (encode e x) (header_of x) (Z.of_nat i) n cur.
Proof.
  induction n as [|n IH]; intros i cur Hf Hwf Hcur Hi; [reflexivity|].
  cbn [walk].
  destruct (nth_error (entries x) i) as [y|] eqn:Hnth;
    [|apply nth_error_None in Hnth; lia].
  rewrite (entry_at_renumber _ _ _ _ _ _ Hf Hwf Hnth Hcur).
  destruct (entry_at e (encode e x) _ _ cur) as [err|[o cur']] eqn:E;
    [reflexivity|].
  destruct (entry_at_inv _ _ _ _ _ _ _ E)
    as (? & ? & ? & ? & ? & ? & _ & _ & _ & _ & ->).
  replace (Z.of_nat i + 1) with (Z.of_nat (S i)) by lia.
  rewrite IH; [reflexivity|assumption|assumption| |lia].
  pose proof (next_name_pos (encode e x) (header_of x) cur Hcur). lia.
Qed.

(** The [name_offset] fields are never used: a bundle parses to the same
    result whatever unsigned 32-bit values they hold. *)
Theorem name_offsets_irrelevant (e : byteorder) (f : nat -> Z) (x : Bundle) :
  wf_bundle x ->
  (forall j, u32 (f j)) ->
  parse_bundle (encode e (with_name_offsets f x))
  = parse_bundle (encode e x).
Proof.
  intros Hwf Hf.
  rewrite (parse_encode e _ (with_name_offsets_wf f x Hf Hwf)),
    (parse_encode e x Hwf).
  cbn [with_name_offsets version entries].
  destruct (version x >=? 16320); [reflexivity|].
  rewrite header_of_renumber, renumber_length.
  apply (walk_renumber e f x _ O 0 Hf Hwf); lia.
Qed.

Lemma name_offsets_irrelevant_witness :
  parse_bundle
    (encode BigEndian
       (with_name_offsets (fun j => 1000 + Z.of_nat (Nat.min j 9))
                          (three_files 0 6 13)))
  = parse_bundle (encode BigEndian (three_files 0 6 13)).
Proof.
  apply (name_offsets_irrelevant BigEndian
           (fun j => 1000 + Z.of_nat (Nat.min j 9)) (three_files 0 6 13)).
  - constructor.
    + reflexivity.
    + reflexivity.
    + unfold u16. cbn. lia.
    + unfold u32. cbn. lia.
    + repeat constructor; cbn; lia.
    + unfold u32. vm_compute. split; [discriminate|reflexivity].
  - intros j. unfold u32. lia.
Defined.

Lemma split0_firstn (n : bytes) : forall k rest,
  ~ In x00 n -> (List.length n < k)%nat ->
  split0 (firstn k (n ++ x00 :: rest)) = n.
Proof.
  induction n as [|a n IH]; intros k rest Hno Hk;
    (destruct k as [|k]; [cbn in Hk; lia|]).
  - reflexivity.
  - cbn [app firstn split0].
    destruct (Byte.eqb a x00) eqn:E.
    + apply Byte.byte_dec_bl in E. exfalso. apply Hno. now left.
    + f_equal. apply IH; [|cbn in Hk; lia].
      intros Hin. apply Hno. now right.
Qed.

Lemma pack_names_app l1 l2 :
  pack_names (l1 ++ l2) = pack_names l1 ++ pack_names l2.
Proof. unfold pack_names. now rewrite map_app, concat_app. Qed.

Lemma skipn_cons_nth {A} (l : list A) : forall i y l',
  skipn i l = y :: l' ->
  nth_error l i = Some y /\ skipn (S i) l = l'.
Proof.
  induction l as [|z l IH]; intros i y l' Hs.
  - rewrite skipn_nil in Hs. discriminate.
  - destruct i as [|i].
    + cbn in Hs. injection Hs as -> ->. now split.
    + cbn [skipn nth_error] in *. now apply IH.
Qed.

(** The walk over an encoded bundle whose name table holds one storable
    name per entry. *)
Lemma walk_names e x (Hwf : wf_bundle x) (rest : list bytes) :
  forall done es_rest,
    name_table x = pack_names (done ++ rest) ->
    skipn (List.length done) (entries x) = es_rest ->
    List.length rest = List.length es_rest ->
    Forall storable rest ->
    (255 <= List.length (data_region x))%nat ->
    walk e (encode e x) (header_of x) (Z.of_nat (List.length done))
         (List.length rest) (len (pack_names done))
    = inr (zip_records (start_of_data x) es_rest rest).
Proof.
  induction rest as [|n rest IH];
    intros done es_rest Htable Hskip Hlen Hst Hdata.
  - destruct es_rest; [reflexivity|discriminate].
  - destruct es_rest as [|y es']; [discriminate|].
    apply skipn_cons_nth in Hskip as [Hnth Hskip].
    apply Forall_cons_iff in Hst as [(Hno & Hshort & Hutf) Hst].
    cbn [List.length walk zip_records].
    assert (Hcur : 0 <= len (pack_names done)) by (unfold len; lia).
    pose proof (entry_read_encode e x Hwf _ _ Hnth) as Hread.
    assert (Hname : name_read e (encode e x) (header_of x)
                              (len (pack_names done))
                    = inr (firstn 255
                             (n ++ x00 :: pack_names rest
                                ++ data_region x), tt)).
    { unfold name_read, unpack_at.
      change (Z.of_nat (calcsize [fmt_s 255])) with 255.
      rewrite (name_read_encode e x Hwf _ Hcur), Htable.
      rewrite pack_names_app, <- app_assoc.
      rewrite <- (Z.add_0_r (len (pack_names done))).
      rewrite read_at_tail by lia. rewrite read_at_eq.
      change (pack_names (n :: rest)) with ((n ++ [x00]) ++ pack_names rest).
      rewrite <- !app_assoc. cbn [app skipn Z.to_nat].
      apply unpack_s. rewrite length_firstn, length_app.
      cbn [List.length]. rewrite length_app.
      change (Pos.to_nat 255) with 255%nat. lia. }
    assert (Hsplit : split0 (firstn 255
                               (n ++ x00 :: pack_names rest
                                  ++ data_region x)) = n)
      by (now apply split0_firstn).
    destruct (utf8_decode n) as [t|] eqn:Hdec; [|contradiction].
    rewrite (entry_at_value _ _ _ _ _ _ _ _ _ _ _ t Hread Hname)
      by (now rewrite Hsplit).
    rewrite Hsplit.
    specialize (IH (done ++ [n]) es').
    rewrite length_app in IH. cbn [List.length] in IH.
    replace (List.length done + 1)%nat with (S (List.length done)) in IH
      by lia.
    replace (Z.of_nat (List.length done) + 1)
      with (Z.of_nat (S (List.length done))) by lia.
    replace (len (pack_names done) + len n + 1)
      with (len (pack_names (done ++ [n]))).
    + rewrite IH; try assumption.
      * unfold decoded. rewrite Hdec. reflexivity.
      * now rewrite <- app_assoc.
      * cbn [List.length] in Hlen. lia.
    + rewrite pack_names_app. unfold len, pack_names.
      cbn [map List.concat].
      rewrite !length_app. cbn [List.length]. lia.
Qed.

(** Writing a bundle and parsing it gives its records back: for entries
    and as many storable names, packed with their terminators and
    followed by at least 255 bytes of data, the parse of the file, in
    either byte order, is the list of the entries paired with the names,
    each offset moved by [start_of_data]. *)
Theorem parse_encode_round_trip (e : byteorder) (x : Bundle)
                                (names : list bytes) :
  wf_bundle x ->
  version x < 16320 ->
  name_table x = pack_names names ->
  Forall storable names ->
  List.length names = List.length (entries x) ->
  (255 <= List.length (data_region x))%nat ->
  parse_bundle (encode e x)
  = inr (zip_records (start_of_data x) (entries x) names).
Proof.
  intros Hwf Hv Htable Hst Hlen Hdata.
  rewrite (parse_encode e x Hwf).
  destruct (Z.geb_spec (version x) 16320) as [Hge|_]; [lia|].
  rewrite <- Hlen.
  apply (walk_names e x Hwf names [] (entries x)); try assumption.
  reflexivity.
Qed.

Lemma parse_encode_round_trip_witness :
  parse_bundle (encode LittleEndian (three_files 0 6 13))
  = inr (zip_records (start_of_data (three_files 0 6 13))
                     (entries (three_files 0 6 13))
                     [b "a.txt"; b "bb.txt"; b "c"]).
Proof.
  apply (parse_encode_round_trip LittleEndian (three_files 0 6 13)
           [b "a.txt"; b "bb.txt"; b "c"]).
  - constructor.
    + reflexivity.
    + reflexivity.
    + unfold u16. cbn. lia.
    + unfold u32. cbn. lia.
    + repeat constructor; cbn; lia.
    + unfold u32. vm_compute. split; [discriminate|reflexivity].
  - cbn. lia.
  - reflexivity.
  - repeat constructor;
      try (vm_compute; intros H; repeat destruct H as [H|H];
           try discriminate; contradiction);
      try (vm_compute; lia);
      try (vm_compute; discriminate).
  - reflexivity.
  - vm_compute. lia.
Defined.

(** * The callers *)

(** ** [filter_file_objects] *)

Lemma subseq_refl {A} (l : list A) : subseq l l.
Proof. induction l; constructor; assumption. Qed.

Lemma subseq_filter {A} (p : A -> bool) (l : list A) :
  subseq (filter p l) l.
Proof.
  induction l as [|x l IH]; cbn [filter]; [constructor|].
  destruct (p x); constructor; assumption.
Qed.

Lemma subseq_map {A B} (g : A -> B) (l l' : list A) :
  subseq l l' -> subseq (map g l) (map g l').
Proof. induction 1; cbn [map]; constructor; assumption. Qed.

Lemma subseq_trans {A} (l1 l2 l3 : list A) :
  subseq l1 l2 -> subseq l2 l3 -> subseq l1 l3.
Proof.
  intros H12 H23. revert l1 H12.
  induction H23 as [|x l2 l3 H23 IH|x l2 l3 H23 IH]; intros l1 H12.
  - assumption.
  - constructor. now apply IH.
  - inversion H12; subst; constructor; now apply IH.
Qed.

Lemma subseq_filter_max {A} (p : A -> bool) (l objs : list A) :
  subseq l objs ->
  (forall x, In x l -> p x = true) ->
  subseq l (filter p objs).
Proof.
  induction 1 as [|x l objs Hsub IH|x l objs Hsub IH]; intros Hall;
    cbn [filter].
  - apply subseq_nil.
  - destruct (p x); [apply subseq_skip|]; now apply IH.
  - rewrite (Hall x (or_introl eq_refl)). apply subseq_keep.
    apply IH. intros y Hy. apply Hall. now right.
Qed.

(** The selection keeps the objects in their order, leaves none out that
    matches, as often as it occurs, and takes none that does not: it is
    a list of matching objects taken in order from the objects, and
    every such list can be taken in order from it. Without a pattern it
    is the whole list. *)
Theorem filter_selects (fnmatchcase : str -> str -> bool)
                       (objs : list FileObject) (include : option str) :
  let selected := filter_file_objects fnmatchcase objs include in
  let matches f :=
    forall pattern, include = Some pattern ->
                    fnmatchcase (filename f) pattern = true in
  subseq selected objs
  /\ (forall f, In f selected <-> In f objs /\ matches f)
  /\ (forall l,
        subseq l objs -> (forall f, In f l -> matches f) ->
        subseq l selected)
  /\ (include = None -> selected = objs).
Proof.
  destruct include as [pattern|]; cbn [filter_file_objects]; cbv zeta.
  - split; [apply subseq_filter|]. split; [|split; [|discriminate]].
    + intros f. rewrite filter_In. split.
      * intros [Hin Hm]. split; [assumption|]. now intros p [= <-].
      * intros [Hin Hm]. split; [assumption|]. now apply Hm.
    + intros l Hsub Hall. apply subseq_filter_max; [assumption|].
      intros f Hf. now apply (Hall f Hf).
  - split; [apply subseq_refl|]. split; [|split; [|reflexivity]].
    + intros f. split; [|tauto]. intros Hin.
      split; [assumption|discriminate].
    + intros l Hsub _. exact Hsub.
Qed.

(** ** [action_list] *)

Lemma print_loop (l : list FileObject) : forall out,
  fold_left (fun stdout f => stdout ++ [filename f]) l out
  = out ++ map filename l.
Proof.
  induction l as [|f l IH]; intros out; cbn [fold_left map].
  - now rewrite app_nil_r.
  - now rewrite IH, <- app_assoc.
Qed.

Lemma init_objects src rs :
  parse_bundle src = inr rs ->
  exists parser, __init__ (open src) = inr parser /\ file_objects parser = rs.
Proof.
  unfold parse_bundle. destruct (__init__ (open src)) as [x|parser];
    [discriminate|].
  intros [= <-]. now exists parser.
Qed.

(** A listing prints nothing when the parse raises, and raises the same;
    otherwise it prints the names of the selected objects, one a line,
    in the order of the entry table, and without a pattern the names of
    all objects. *)
Theorem action_list_prints (fnmatchcase : str -> str -> bool)
                           (src : bytes) (include : option str) :
  (forall x, parse_bundle src = inl x ->
             action_list fnmatchcase src include = inl x)
  /\ (forall rs,
        parse_bundle src = inr rs ->
        exists lines,
          action_list fnmatchcase src include = inr lines
          /\ lines = map filename (filter_file_objects fnmatchcase rs include)
          /\ subseq lines (map filename rs)
          /\ (include = None -> lines = map filename rs)).
Proof.
  split.
  - intros x. unfold parse_bundle, action_list.
    destruct (__init__ (open src)); congruence.
  - intros rs Hparse.
    destruct (init_objects _ _ Hparse) as (parser & Hinit & <-).
    unfold action_list. rewrite Hinit, print_loop. cbn [app].
    eexists. split; [reflexivity|]. split; [reflexivity|].
    split; [|now intros ->].
    apply subseq_map. destruct include; [apply subseq_filter|].
    apply subseq_refl.
Qed.

Lemma action_list_prints_witness :
  action_list same_name bad_name None = inl UnicodeDecodeError
  /\ exists lines,
       action_list same_name three_files_be (Some (text "bb.txt"))
       = inr lines
       /\ lines = map filename
                    (filter_file_objects same_name three_records
                                         (Some (text "bb.txt")))
       /\ subseq lines (map filename three_records)
       /\ (Some (text "bb.txt") = None -> lines = map filename three_records).
Proof.
  split.
  - apply (proj1 (action_list_prints same_name bad_name None)).
    vm_compute. reflexivity.
  - apply (proj2 (action_list_prints same_name three_files_be
                    (Some (text "bb.txt"))) three_records).
    vm_compute. reflexivity.
Defined.

(** ** [action_extract] *)

Lemma parse_files_v1_content e src p u self :
  parse_files_v1 (mkParser (mkIO src p) e []) = inr (u, self) ->
  content (file self) = src.
Proof.
  unfold parse_files_v1. rewrite seek_unpack.
  destruct (unpack_at e src 12 _)
    as [x|[sfe [sfn [sod [u3 [sofe [u5 [u6 u']]]]]]]]; [discriminate|].
  rewrite seek_bind. unfold bind, ret, for_range.
  match goal with
  | |- context [for_from 0 ?n _ 0 (mkParser (mkIO src ?q) e [])] =>
      pose proof (for_from_walk e src (mkHeader sfe sfn sod sofe) n 0 0 []
                                q) as Hwalk
  end.
  cbn [h_entries h_names h_data] in Hwalk.
  destruct (for_from 0 _ _ 0 _) as [x|[c self']]; [discriminate|].
  destruct Hwalk as (rs & p' & _ & ->). now intros [= _ <-].
Qed.

(** The parser reads its file and never changes what it holds. *)
Lemma init_content src parser :
  __init__ (open src) = inr parser -> content (file parser) = src.
Proof.
  unfold __init__, open, io_read, constructed. cbn [content tell].
  destruct (unpack_from LittleEndian [fmt_s 4] _) as [x|[header u]];
    [discriminate|].
  destruct (if bytes_eqb header (b "LPAK") then _ else _) as [x|e];
    [discriminate|].
  unfold parse_files. rewrite seek_unpack.
  destruct (unpack_at e src 6 _) as [x|[v u']]; [discriminate|].
  destruct (v >=? 16320); [discriminate|].
  destruct (parse_files_v1 _) as [x|[u'' self]] eqn:Hv1; [discriminate|].
  intros [= <-]. eapply parse_files_v1_content, Hv1.
Qed.

Section ExtractFacts.
Variables (FS E : Type).
Variable perform : fs_op -> FS -> FS * option E.
Variables (src : bytes) (overwrite : bool).

Lemma run_ops_app ops1 ops2 fs :
  run_ops perform (ops1 ++ ops2) fs
  = match run_ops perform ops1 fs with
    | (fs', Some err) => (fs', Some err)
    | (fs', None) => run_ops perform ops2 fs'
    end.
Proof.
  revert fs. induction ops1 as [|op ops1 IH]; intros fs; cbn [app run_ops];
    [reflexivity|].
  destruct (perform op fs) as [fs' [err|]]; [reflexivity|apply IH].
Qed.

(** The loop makes the calls the selected objects stand for, one after
    the other, and stops at the first that raises; what it prints is a
    line for each compressed object it came to. *)
Lemma extract_loop_runs selected : forall lpak fs out,
  content lpak = src ->
  let o := extract_loop perform overwrite selected lpak fs out in
  let r := run_ops perform (flat_map (record_ops src overwrite) selected)
                   fs in
  fs_after o = fst r
  /\ raised o = option_map inr (snd r)
  /\ exists printed unprinted,
       stdout o = out ++ printed
       /\ map skip_message (map filename (filter compressed selected))
          = printed ++ unprinted
       /\ (raised o = None -> unprinted = []).
Proof.
  induction selected as [|f rest IH]; intros lpak fs out Hsrc.
  - cbn. repeat split. exists [], []. rewrite app_nil_r. auto.
  - cbn [extract_loop flat_map filter].
    destruct (compressed f) eqn:Hc.
    + replace (record_ops src overwrite f) with (@nil fs_op)
        by (unfold record_ops; now rewrite Hc).
      cbn [app map].
      destruct (IH lpak fs (out ++ [skip_message (filename f)]) Hsrc)
        as (Hfs & Hr & printed & unprinted & Hout & Hall & Hnone).
      split; [exact Hfs|]. split; [exact Hr|].
      exists (skip_message (filename f) :: printed), unprinted.
      rewrite Hout, <- app_assoc. cbn [app]. rewrite Hall. auto.
    + replace (record_ops src overwrite f)
        with [MkdirParent (filename f); Touch (filename f) overwrite;
              WriteBytes (filename f) (read_at src (offset f) (size f))]
        by (unfold record_ops; now rewrite Hc).
      cbn [app run_ops].
      destruct (perform (MkdirParent (filename f)) fs) as [fs1 [err|]].
      { cbn. repeat split. eexists [], _. rewrite app_nil_r.
        repeat split. discriminate. }
      destruct (perform (Touch (filename f) overwrite) fs1) as [fs2 [err|]].
      { cbn. repeat split. eexists [], _. rewrite app_nil_r.
        repeat split. discriminate. }
      unfold io_read, io_seek. cbn [content tell]. rewrite Hsrc.
      destruct (perform (WriteBytes (filename f) _) fs2) as [fs3 [err|]].
      { cbn. repeat split. eexists [], _. rewrite app_nil_r.
        repeat split. discriminate. }
      apply IH. reflexivity.
Qed.


End ExtractFacts.

(** The calls and lines of an extraction, for the proofs below. *)
Lemma action_extract_calls (FS E : Type)
    (perform : fs_op -> FS -> FS * option E)
    (fnmatchcase : str -> str -> bool) (src : bytes)
    (include : option str) (overwrite : bool) (fs : FS)
    (rs : list FileObject) :
  parse_bundle src = inr rs ->
  let selected := filter_file_objects fnmatchcase rs include in
  let o := action_extract perform fnmatchcase src include overwrite fs in
  let r := run_ops perform (flat_map (record_ops src overwrite) selected)
                   fs in
  fs_after o = fst r
  /\ raised o = option_map inr (snd r)
  /\ exists printed unprinted,
       stdout o = printed
       /\ map skip_message (map filename (filter compressed selected))
          = printed ++ unprinted
       /\ (raised o = None -> unprinted = []).
Proof.
  intros Hparse.
  destruct (init_objects _ _ Hparse) as (parser & Hinit & <-).
  unfold action_extract. rewrite Hinit.
  apply (extract_loop_runs FS E perform src overwrite _ (file parser) fs []).
  now apply init_content.
Qed.

Lemma action_list_value fnmatchcase src include rs :
  parse_bundle src = inr rs ->
  action_list fnmatchcase src include
  = inr (map filename (filter_file_objects fnmatchcase rs include)).
Proof.
  intros Hparse.
  destruct (init_objects _ _ Hparse) as (parser & Hinit & <-).
  unfold action_list. now rewrite Hinit, print_loop.
Qed.


(** The numbers of a record are never negative. *)
Lemma record_bounds src rs f :
  parse_bundle src = inr rs -> In f rs ->
  0 <= offset f /\ u32 (size f) /\ u32 (compressed_size f).
Proof.
  intros Hparse Hin.
  destruct (parse_success_header _ _ Hparse) as (e & h & Hhdr & Hwalk).
  destruct (In_nth_error _ _ Hin) as (k & Hnth).
  pose proof (walk_nth _ _ _ _ _ _ _ _ _ Hwalk Hnth) as Hentry.
  destruct (entry_at_inv _ _ _ _ _ _ _ Hentry)
    as (o & no & s & cs & c & [] & Hread & _ & _ & Hr & _).
  destruct (read_header_inv _ _ _ Hhdr) as (_ & _ & Hh).
  destruct (header_at_bound _ _ _ Hh) as (_ & _ & Hd & _).
  destruct (unpack_I5_bound _ _ _ _ _ _ _ _ _ Hread)
    as (Ho & _ & Hs & Hcs & _).
  rewrite Hr. cbn [offset size compressed_size]. unfold u32 in *.
  repeat split; lia.
Qed.

Lemma filter_file_objects_In fnmatchcase rs include f :
  In f (filter_file_objects fnmatchcase rs include) -> In f rs.
Proof.
  destruct include as [pattern|]; cbn [filter_file_objects]; [|trivial].
  rewrite filter_In. tauto.
Qed.

Lemma run_ops_record ops : forall log,
  run_ops record_call ops log = (log ++ ops, None).
Proof.
  induction ops as [|op ops IH]; intros log; cbn [run_ops record_call].
  - now rewrite app_nil_r.
  - rewrite IH, <- app_assoc. reflexivity.
Qed.

(** What an extraction writes, seen on the file system that records the
    calls: for every selected object that is not compressed there is a
    [write_bytes] on its name, of the bytes of the bundle from the
    object's offset on, as many as its size, or as many as there are
    when the bundle ends before; nothing else is written, and a range
    that leaves the bundle raises nothing: the file written is shorter,
    or empty. *)
Theorem extracted_bytes (fnmatchcase : str -> str -> bool) (src : bytes)
                        (include : option str) (overwrite : bool)
                        (rs : list FileObject) :
  parse_bundle src = inr rs ->
  let selected := filter_file_objects fnmatchcase rs include in
  let o := action_extract record_call fnmatchcase src include overwrite []
  in
  raised o = None
  /\ (forall f,
        In f selected -> compressed f = false ->
        exists data,
          In (WriteBytes (filename f) data) (fs_after o)
          /\ data
             = firstn (Z.to_nat (size f)) (skipn (Z.to_nat (offset f)) src)
          /\ len data = Z.min (size f) (remaining src (offset f))
          /\ (offset f + size f <= len src -> len data = size f))
  /\ (forall path data,
        In (WriteBytes path data) (fs_after o) ->
        exists f,
          In f selected /\ compressed f = false /\ path = filename f
          /\ data
             = firstn (Z.to_nat (size f)) (skipn (Z.to_nat (offset f)) src)).
Proof.
  intros Hparse selected o.
  destruct (action_extract_calls (list fs_op) Empty_set record_call
              fnmatchcase src include overwrite [] rs Hparse)
    as (Hfs & Hr & _).
  fold selected in Hfs, Hr. fold o in Hfs, Hr.
  rewrite run_ops_record in Hfs, Hr. cbn [fst snd option_map app] in Hfs, Hr.
  split; [exact Hr|]. rewrite Hfs. split.
  - intros f Hin Hc.
    destruct (record_bounds _ _ _ Hparse
                (filter_file_objects_In _ _ _ _ Hin)) as (Ho & Hs & _).
    unfold u32 in Hs.
    exists (read_at src (offset f) (size f)).
    split.
    { apply in_flat_map. exists f. split; [exact Hin|].
      unfold record_ops. rewrite Hc. right. right. left. reflexivity. }
    split; [apply read_at_eq|].
    assert (Hlen : len (read_at src (offset f) (size f))
                   = Z.min (size f) (remaining src (offset f))).
    { unfold len. rewrite length_read_at. unfold remaining, len. lia. }
    split; [exact Hlen|].
    intros Hin_range. rewrite Hlen. unfold remaining. lia.
  - intros path data Hop.
    apply in_flat_map in Hop as (f & Hin & Hop).
    exists f. unfold record_ops in Hop.
    destruct (compressed f) eqn:Hc; [contradiction|].
    destruct Hop as [Hop|[Hop|[Hop|[]]]]; try discriminate.
    injection Hop as <- <-.
    repeat split; [exact Hin|apply read_at_eq].
Qed.

Lemma extracted_bytes_witness :
  let selected := filter_file_objects same_name
                    [mkFileObject 1000315 1 1 false (text "a")] None in
  let o := action_extract record_call same_name far_offset None true [] in
  raised o = None
  /\ (forall f,
        In f selected -> compressed f = false ->
        exists data,
          In (WriteBytes (filename f) data) (fs_after o)
          /\ data
             = firstn (Z.to_nat (size f))
                      (skipn (Z.to_nat (offset f)) far_offset)
          /\ len data = Z.min (size f) (remaining far_offset (offset f))
          /\ (offset f + size f <= len far_offset -> len data = size f))
  /\ (forall path data,
        In (WriteBytes path data) (fs_after o) ->
        exists f,
          In f selected /\ compressed f = false /\ path = filename f
          /\ data
             = firstn (Z.to_nat (size f))
                      (skipn (Z.to_nat (offset f)) far_offset)).
Proof.
  apply (extracted_bytes same_name far_offset None true
           [mkFileObject 1000315 1 1 false (text "a")]).
  vm_compute. reflexivity.
Defined.

(** Objects that are all compressed are only reported: whatever the file
    system, no call is made on it, nothing is raised, and a line is
    printed for each selected object. *)
Theorem compressed_only_reported (FS E : Type)
    (perform : fs_op -> FS -> FS * option E)
    (fnmatchcase : str -> str -> bool) (src : bytes)
    (include : option str) (overwrite : bool) (fs : FS)
    (rs : list FileObject) :
  parse_bundle src = inr rs ->
  (forall f, In f (filter_file_objects fnmatchcase rs include) ->
             compressed f = true) ->
  action_extract perform fnmatchcase src include overwrite fs
  = mkOutcome fs
      (map skip_message
         (map filename (filter_file_objects fnmatchcase rs include)))
      None.
Proof.
  intros Hparse Hall.
  destruct (action_extract_calls FS E perform fnmatchcase src include
              overwrite fs rs Hparse)
    as (Hfs & Hr & printed & unprinted & Hout & Hmsg & Hnone).
  set (selected := filter_file_objects fnmatchcase rs include) in *.
  assert (Hops : flat_map (record_ops src overwrite) selected = []).
  { clearbody selected. clear -Hall.
    induction selected as [|f l IH]; [reflexivity|].
    cbn [flat_map]. unfold record_ops at 1.
    rewrite (Hall f (or_introl eq_refl)). cbn [app].
    apply IH. intros g Hg. apply Hall. now right. }
  assert (Hfilter : filter compressed selected = selected).
  { clearbody selected. clear -Hall.
    induction selected as [|f l IH]; [reflexivity|].
    cbn [filter]. rewrite (Hall f (or_introl eq_refl)). f_equal.
    apply IH. intros g Hg. apply Hall. now right. }
  rewrite Hops in Hfs, Hr. cbn [run_ops fst snd option_map] in Hfs, Hr.
  rewrite Hfilter in Hmsg. specialize (Hnone Hr). subst unprinted.
  rewrite app_nil_r in Hmsg.
  destruct (action_extract perform fnmatchcase src include overwrite fs)
    as [fs' out r].
  cbn [fs_after stdout raised] in *. congruence.
Qed.

Lemma compressed_only_reported_witness :
  action_extract record_call same_name three_files_be
                 (Some (text "c")) false []
  = mkOutcome []
      (map skip_message
         (map filename
            (filter_file_objects same_name three_records (Some (text "c")))))
      None.
Proof.
  apply (compressed_only_reported (list fs_op) Empty_set record_call
           same_name three_files_be (Some (text "c")) false []
           three_records).
  - vm_compute. reflexivity.
  - vm_compute. intros f [<-|[]]. reflexivity.
Defined.

Lemma written_paths_ops src overwrite (l : list FileObject) :
  written_paths (flat_map (record_ops src overwrite) l)
  = map filename (filter (fun f => negb (compressed f)) l).
Proof.
  unfold written_paths. induction l as [|f l IH]; [reflexivity|].
  cbn [flat_map filter]. rewrite flat_map_app, IH. unfold record_ops.
  destruct (compressed f); reflexivity.
Qed.

(** Listing and extracting agree: on a file system that takes every
    call, an extraction writes the paths a listing with the same pattern
    prints, those of compressed objects left out, in the same order,
    and raises nothing. *)
Theorem extract_writes_listed (fnmatchcase : str -> str -> bool)
    (src : bytes) (include : option str) (overwrite : bool)
    (lines : list str) :
  action_list fnmatchcase src include = inr lines ->
  let o := action_extract record_call fnmatchcase src include overwrite []
  in
  raised o = None
  /\ subseq (written_paths (fs_after o)) lines
  /\ (List.length (written_paths (fs_after o)) + List.length (stdout o)
      = List.length lines)%nat.
Proof.
  intros Hlist o.
  assert (Hparse : exists rs, parse_bundle src = inr rs).
  { unfold action_list in Hlist. unfold parse_bundle.
    destruct (__init__ (open src)) as [x|parser]; [discriminate|].
    now eexists. }
  destruct Hparse as (rs & Hparse).
  assert (Hmap : lines
                 = map filename (filter_file_objects fnmatchcase rs include))
    by (rewrite (action_list_value _ _ _ _ Hparse) in Hlist; congruence).
  destruct (action_extract_calls (list fs_op) Empty_set record_call
              fnmatchcase src include overwrite [] rs Hparse)
    as (Hfs & Hr & printed & unprinted & Hout & Hmsg & Hnone).
  fold o in Hfs, Hr, Hout, Hnone.
  rewrite run_ops_record in Hfs, Hr. cbn [fst snd option_map app] in Hfs, Hr.
  specialize (Hnone Hr). subst unprinted. rewrite app_nil_r in Hmsg.
  split; [exact Hr|].
  rewrite Hfs, written_paths_ops, Hmap, Hout, <- Hmsg.
  split; [apply subseq_map, subseq_filter|].
  rewrite !length_map.
  set (l := filter_file_objects fnmatchcase rs include). clearbody l.
  clear. induction l as [|f l IH]; [reflexivity|].
  cbn [filter]. destruct (compressed f); cbn [negb List.length]; lia.
Qed.

Lemma extract_writes_listed_witness :
  let o := action_extract record_call same_name three_files_be None true []
  in
  raised o = None
  /\ subseq (written_paths (fs_after o)) (map filename three_records)
  /\ (List.length (written_paths (fs_after o)) + List.length (stdout o)
      = List.length (map filename three_records))%nat.
Proof.
  apply (extract_writes_listed same_name three_files_be None true
           (map filename three_records)).
  vm_compute. reflexivity.
Defined.

(** * Further properties of the parser, continued *)

(** ** The version field, byte by byte *)

Lemma skipn_nth_cons {A} (l : list A) : forall n x,
  nth_error l n = Some x -> skipn n l = x :: skipn (S n) l.
Proof.
  induction l as [|y l IH]; intros n x Hnth.
  - destruct n; discriminate.
  - destruct n as [|n]; cbn [nth_error skipn] in *.
    + now injection Hnth as ->.
    + now apply IH.
Qed.

(** The version is made of bytes 6 and 7: the first is the high byte
    under [LPAK] and the low byte under [KAPL]. The parse refuses the
    file exactly when the number so made is at least 16320. *)
Theorem version_field_bytes (src : bytes) (e : byteorder) (b6 b7 : byte) :
  firstn 4 src = magic_of e ->
  nth_error src 6 = Some b6 ->
  nth_error src 7 = Some b7 ->
  let v := match e with
           | BigEndian => 256 * byte_val b6 + byte_val b7
           | LittleEndian => byte_val b6 + 256 * byte_val b7
           end in
  parse_bundle src = inl UnsupportedVersionError <-> 16320 <= v.
Proof.
  intros Hm H6 H7 v.
  assert (Hread : read_at src 6 2 = [b6; b7]).
  { rewrite read_at_eq. change (Z.to_nat 6) with 6%nat.
    rewrite (skipn_nth_cons _ _ _ H6), (skipn_nth_cons _ _ _ H7).
    reflexivity. }
  assert (Hv : version_at e src = inr v).
  { unfold version_at, unpack_at, unpack_from.
    change (Z.of_nat (calcsize [fmt_H])) with 2. rewrite Hread.
    cbn [List.length calcsize code_size Nat.add Nat.ltb Nat.leb
         decode_fields decode_code firstn].
    f_equal. subst v. destruct e;
      cbn [int_from_bytes rev app]; unfold from_bytes_big;
      cbn [fold_left]; lia. }
  rewrite parse_bundle_spec, (parse_spec_recognized _ _ Hm), Hv.
  destruct (Z.geb_spec v 16320) as [Hge|Hlt].
  - split; [lia|reflexivity].
  - split; [|lia]. intros Hbad.
    destruct (parse_v1_error _ _ _ Hbad); discriminate.
Qed.

Lemma version_field_bytes_witness :
  parse_bundle (b "KAPL" ++ [x00; x00; xc0; x3f]) = inl UnsupportedVersionError.
Proof.
  apply (proj2 (version_field_bytes (b "KAPL" ++ [x00; x00; xc0; x3f])
                  LittleEndian xc0 x3f eq_refl eq_refl eq_refl)).
  vm_compute. discriminate.
Defined.

(** ** The cursor *)

Lemma name_cursor_range (src : bytes) (sfn : Z) (k : nat) :
  Z.of_nat k <= name_cursor src sfn k <= 256 * Z.of_nat k.
Proof.
  assert (Hstep : forall j,
            1 <= name_cursor src sfn (S j) - name_cursor src sfn j <= 256).
  { intros j.
    change (name_cursor src sfn (S j))
      with (next_name src sfn (name_cursor src sfn j)).
    unfold next_name.
    destruct (name_bytes_props src sfn (name_cursor src sfn j)) as [Hl _].
    unfold len. lia. }
  induction k as [|k IH]; [cbn; lia|].
  specialize (Hstep k). lia.
Qed.

(** The cursor moves by at least one and at most 256 bytes an entry: in
    a successful parse the name of record [k] is read between [k] and
    [256 * k] bytes into the name table, and the 255 bytes read there
    are in the file. *)
Theorem name_cursor_bounds (src : bytes) (rs : list FileObject) :
  parse_bundle src = inr rs ->
  exists e h,
    read_header src = inr (e, h)
    /\ forall k r, nth_error rs k = Some r ->
       exists cur,
         Z.of_nat k <= cur <= 256 * Z.of_nat k
         /\ h_names h + cur + 255 <= len src
         /\ utf8_decode (split0 (read_at src (h_names h + cur) 255))
            = Some (filename r).
Proof.
  intros Hparse.
  destruct (parse_success_header _ _ Hparse) as (e & h & Hhdr & Hwalk).
  exists e, h. split; [assumption|]. intros k r Hnth.
  destruct (read_header_inv _ _ _ Hhdr) as (_ & _ & Hh).
  destruct (header_at_bound _ _ _ Hh) as (_ & Hn & _). unfold u32 in Hn.
  exists (name_cursor src (h_names h) k).
  pose proof (name_cursor_range src (h_names h) k) as Hrange.
  destruct (walk_name _ _ _ _ _ _ _ Hwalk Hnth ltac:(lia))
    as (Hfull & _ & Hdec).
  split; [exact Hrange|]. split; [|exact Hdec].
  apply remaining_full in Hfull; lia.
Qed.

Lemma name_cursor_bounds_witness :
  exists e h,
    read_header three_files_le = inr (e, h)
    /\ forall k r, nth_error three_records k = Some r ->
       exists cur,
         Z.of_nat k <= cur <= 256 * Z.of_nat k
         /\ h_names h + cur + 255 <= len three_files_le
         /\ utf8_decode (split0 (read_at three_files_le
                                         (h_names h + cur) 255))
            = Some (filename r).
Proof.
  apply (name_cursor_bounds three_files_le three_records).
  vm_compute. reflexivity.
Defined.

(** ** What the parser does not look at *)

Lemma header_of_reserved b45 b811 u3 u5 u6 g x :
  List.length g = List.length (gap x) ->
  header_of (with_reserved b45 b811 u3 u5 u6 g x) = header_of x.
Proof.
  intros Hg.
  unfold header_of, start_of_data, start_of_file_names,
    size_of_file_entries, start_of_file_entries, with_reserved, len.
  cbn [gap entries name_table]. now rewrite Hg.
Qed.

Lemma walk_reserved e b45 b811 u3 u5 u6 g x n : forall i cur,
  wf_bundle x ->
  wf_bundle (with_reserved b45 b811 u3 u5 u6 g x) ->
  List.length g = List.length (gap x) ->
  0 <= cur ->
  (i + n <= List.length (entries x))%nat ->
  walk e (encode e (with_reserved b45 b811 u3 u5 u6 g x)) (header_of x)
       (Z.of_nat i) n cur
  = walk e (encode e x) (header_of x) (Z.of_nat i) n cur.
Proof.
  induction n as [|n IH]; intros i cur Hwf Hwf' Hg Hcur Hi; [reflexivity|].
  cbn [walk].
  destruct (nth_error (entries x) i) as [y|] eqn:Hnth;
    [|apply nth_error_None in Hnth; lia].
  assert (Hentry :
    entry_at e (encode e (with_reserved b45 b811 u3 u5 u6 g x))
             (header_of x) (Z.of_nat i) cur
    = entry_at e (encode e x) (header_of x) (Z.of_nat i) cur).
  { pose proof (entry_read_encode e _ Hwf' i y Hnth) as Hread'.
    pose proof (name_read_encode e _ Hwf' cur Hcur) as Hname'.
    rewrite (header_of_reserved _ _ _ _ _ _ _ Hg) in Hread', Hname'.
    unfold entry_at. rewrite Hread', (entry_read_encode e x Hwf i y Hnth).
    unfold name_read, unpack_at.
    change (Z.of_nat (calcsize [fmt_s 255])) with 255.
    rewrite Hname', (name_read_encode e x Hwf cur Hcur). reflexivity. }
  rewrite Hentry.
  destruct (entry_at e (encode e x) _ _ cur) as [err|[o cur']] eqn:E;
    [reflexivity|].
  destruct (entry_at_inv _ _ _ _ _ _ _ E)
    as (? & ? & ? & ? & ? & ? & _ & _ & _ & _ & ->).
  replace (Z.of_nat i + 1) with (Z.of_nat (S i)) by lia.
  rewrite IH; [reflexivity|assumption|assumption|assumption| |lia].
  pose proof (next_name_pos (encode e x) (header_of x) cur Hcur). lia.
Qed.

(** Bytes 4, 5 and 8 to 11, the three unused header fields and what the
    gap before the entry table holds change nothing: two bundles that
    differ only there parse to the same result. *)
Theorem reserved_bytes_ignored (e : byteorder) (b45 b811 : bytes)
                               (u3 u5 u6 : Z) (g : bytes) (x : Bundle) :
  wf_bundle x ->
  wf_bundle (with_reserved b45 b811 u3 u5 u6 g x) ->
  List.length g = List.length (gap x) ->
  parse_bundle (encode e (with_reserved b45 b811 u3 u5 u6 g x))
  = parse_bundle (encode e x).
Proof.
  intros Hwf Hwf' Hg.
  rewrite (parse_encode e _ Hwf'), (parse_encode e x Hwf).
  rewrite (header_of_reserved _ _ _ _ _ _ _ Hg).
  cbn [with_reserved version entries].
  destruct (version x >=? 16320); [reflexivity|].
  apply (walk_reserved e b45 b811 u3 u5 u6 g x _ O 0 Hwf Hwf' Hg); lia.
Qed.

Lemma reserved_bytes_ignored_witness :
  parse_bundle
    (encode BigEndian
       (with_reserved [x01; x02] [x03; x04; x05; x06] 7 8 9 []
                      (three_files 0 6 13)))
  = parse_bundle (encode BigEndian (three_files 0 6 13)).
Proof.
  apply (reserved_bytes_ignored BigEndian [x01; x02] [x03; x04; x05; x06]
           7 8 9 [] (three_files 0 6 13)).
  - constructor.
    + reflexivity.
    + reflexivity.
    + unfold u16. cbn. lia.
    + unfold u32. cbn. lia.
    + repeat constructor; cbn; lia.
    + unfold u32. vm_compute. split; [discriminate|reflexivity].
  - constructor.
    + reflexivity.
    + reflexivity.
    + unfold u16. cbn. lia.
    + unfold u32. cbn. lia.
    + repeat constructor; cbn; lia.
    + unfold u32. vm_compute. split; [discriminate|reflexivity].
  - reflexivity.
Defined.

(** * The tag and the byte order of every field *)

Lemma magic_of_inj e e' : magic_of e = magic_of e' -> e = e'.
Proof. destruct e, e'; intros H; try reflexivity; discriminate. Qed.

(** Four bytes inside a longer read are the four bytes read there. *)
Lemma read_at_sub src pos (k n : nat) :
  0 <= pos ->
  (k + 4 <= n)%nat ->
  firstn 4 (skipn k (read_at src pos (Z.of_nat n)))
  = read_at src (pos + Z.of_nat k) 4.
Proof.
  intros Hpos Hk. rewrite !read_at_eq, Nat2Z.id.
  rewrite skipn_firstn_comm, firstn_firstn, skipn_skipn.
  replace (Nat.min 4 (n - k)) with 4%nat by lia.
  replace (Z.to_nat (pos + Z.of_nat k)) with (k + Z.to_nat pos)%nat by lia.
  reflexivity.
Qed.

Lemma decode_I_head e fmt buf :
  decode_fields e (fmt_I :: fmt) buf
  = (int_from_bytes e (firstn 4 (skipn 0 buf)),
     decode_fields e fmt (skipn 4 buf)).
Proof. reflexivity. Qed.

Lemma decode_I_next e fmt buf k :
  decode_fields e (fmt_I :: fmt) (skipn k buf)
  = (int_from_bytes e (firstn 4 (skipn k buf)),
     decode_fields e fmt (skipn (4 + k) buf)).
Proof.
  cbn [decode_fields code_size decode_code]. now rewrite skipn_skipn.
Qed.

(** The fields of the header, each from its own four bytes. *)
Lemma unpack_I7_fields e src f0 f1 f2 f3 f4 f5 f6 u :
  unpack_at e src 12 (repeat fmt_I 7)
  = inr (f0, (f1, (f2, (f3, (f4, (f5, (f6, u))))))) ->
  f0 = int_from_bytes e (read_at src 12 4)
  /\ f1 = int_from_bytes e (read_at src 16 4)
  /\ f2 = int_from_bytes e (read_at src 20 4)
  /\ f4 = int_from_bytes e (read_at src 28 4).
Proof.
  unfold unpack_at, unpack_from.
  destruct (_ <? _)%nat; [discriminate|].
  change (Z.of_nat (calcsize (repeat fmt_I 7))) with (Z.of_nat 28).
  set (buf := read_at src 12 (Z.of_nat 28)).
  assert (Hdec : decode_fields e (repeat fmt_I 7) buf
            = (int_from_bytes e (firstn 4 (skipn 0 buf)),
               (int_from_bytes e (firstn 4 (skipn 4 buf)),
                (int_from_bytes e (firstn 4 (skipn 8 buf)),
                 (int_from_bytes e (firstn 4 (skipn 12 buf)),
                  (int_from_bytes e (firstn 4 (skipn 16 buf)),
                   (int_from_bytes e (firstn 4 (skipn 20 buf)),
                    (int_from_bytes e (firstn 4 (skipn 24 buf)), tt)))))))).
  { cbn [repeat]. rewrite decode_I_head. do 6 rewrite decode_I_next.
    reflexivity. }
  rewrite Hdec. subst buf. intros Heq.
  assert (H12 : 0 <= 12) by lia.
  rewrite !(read_at_sub src 12 _ 28 H12) in Heq by lia.
  injection Heq as <- <- <- _ <- _ _. repeat split.
Qed.

(** The fields of an entry, each from its own four bytes. *)
Lemma unpack_I5_fields e src pos f0 f1 f2 f3 f4 u :
  0 <= pos ->
  unpack_at e src pos (repeat fmt_I 5)
  = inr (f0, (f1, (f2, (f3, (f4, u))))) ->
  f0 = int_from_bytes e (read_at src pos 4)
  /\ f2 = int_from_bytes e (read_at src (pos + 8) 4)
  /\ f3 = int_from_bytes e (read_at src (pos + 12) 4)
  /\ f4 = int_from_bytes e (read_at src (pos + 16) 4).
Proof.
  intros Hpos. unfold unpack_at, unpack_from.
  destruct (_ <? _)%nat; [discriminate|].
  change (Z.of_nat (calcsize (repeat fmt_I 5))) with (Z.of_nat 20).
  set (buf := read_at src pos (Z.of_nat 20)).
  assert (Hdec : decode_fields e (repeat fmt_I 5) buf
            = (int_from_bytes e (firstn 4 (skipn 0 buf)),
               (int_from_bytes e (firstn 4 (skipn 4 buf)),
                (int_from_bytes e (firstn 4 (skipn 8 buf)),
                 (int_from_bytes e (firstn 4 (skipn 12 buf)),
                  (int_from_bytes e (firstn 4 (skipn 16 buf)), tt)))))).
  { cbn [repeat]. rewrite decode_I_head. do 4 rewrite decode_I_next.
    reflexivity. }
  rewrite Hdec. subst buf. intros Heq.
  rewrite !(read_at_sub src pos _ 20 Hpos) in Heq by lia.
  injection Heq as <- _ <- <- <-.
  rewrite Z.add_0_r. repeat split.
Qed.

(** C4: a file that starts with [LPAK] is parsed with big-endian fields
    and one that starts with [KAPL] with little-endian fields. With tag
    [magic_of e] the parse is the reading of the file in byte order [e]:
    the version, the header fields and the fields of every entry are
    each the number its bytes make in that order, most significant byte
    first for [LPAK] and last for [KAPL], and the byte order stays with
    the parser object. Any other four first bytes make the constructor
    raise [ValueError("Not a LPAK file")], so that no parser object
    exists. *)
Theorem magic_selects_byte_order (src : bytes) :
  (forall e,
     firstn 4 src = magic_of e ->
     parse_bundle src
     = match version_at e src with
       | inl x => inl x
       | inr v =>
           if v >=? 16320 then inl UnsupportedVersionError
           else parse_v1_spec e src
       end
     /\ __init__ (open src)
        = constructed (parse_files (mkParser (mkIO src 4) e []))
     /\ (forall self, __init__ (open src) = inr self -> endianness self = e)
     /\ forall rs,
          parse_bundle src = inr rs ->
          let field pos := int_from_bytes e (read_at src pos 4) in
          int_from_bytes e (read_at src 6 2) < 16320
          /\ len rs = field 28 / 20
          /\ forall i r,
               nth_error rs i = Some r ->
               let p := field 12 + Z.of_nat i * 20 in
               offset r = field p + field 20
               /\ size r = field (p + 8)
               /\ compressed_size r = field (p + 12)
               /\ (compressed r = true <-> field (p + 16) <> 0)
               /\ utf8_decode
                    (split0 (read_at src
                               (field 16 + name_cursor src (field 16) i)
                               255))
                  = Some (filename r))
  /\ magic_of BigEndian = b "LPAK"
  /\ magic_of LittleEndian = b "KAPL"
  /\ (forall b0 b1 b2 b3,
        int_from_bytes BigEndian [b0; b1; b2; b3]
        = ((byte_val b0 * 256 + byte_val b1) * 256 + byte_val b2) * 256
          + byte_val b3
        /\ int_from_bytes LittleEndian [b0; b1; b2; b3]
           = ((byte_val b3 * 256 + byte_val b2) * 256 + byte_val b1) * 256
             + byte_val b0
        /\ int_from_bytes BigEndian [b0; b1]
           = byte_val b0 * 256 + byte_val b1
        /\ int_from_bytes LittleEndian [b0; b1]
           = byte_val b1 * 256 + byte_val b0)
  /\ ((4 <= List.length src)%nat ->
      firstn 4 src <> b "LPAK" -> firstn 4 src <> b "KAPL" ->
      __init__ (open src) = inl UnrecognizedFormatError).
Proof.
  split; [|split; [reflexivity|split; [reflexivity|split]]].
  - intros e Hm.
    split; [now rewrite parse_bundle_spec, (parse_spec_recognized _ _ Hm)|].
    split; [now apply init_recognized|].
    split.
    { intros self. rewrite (init_recognized _ _ Hm).
      pose proof (parse_files_spec e src 4) as Hfiles.
      destruct (parse_files _) as [x|[u self']]; [discriminate|].
      intros [= <-]. apply Hfiles. }
    intros rs Hparse field.
    destruct (parse_success_inv _ _ Hparse)
      as (e' & v & h & Hm' & Hv & Hlt & Hh & Hwalk).
    assert (e' = e) by (apply magic_of_inj; congruence). subst e'.
    unfold version_at in Hv.
    destruct (unpack_at e src 6 [fmt_H]) as [x|[v' u]] eqn:Ev;
      [discriminate|].
    injection Hv as ->.
    destruct (unpack_H_inv _ _ _ _ _ Ev) as [Hval _].
    destruct (header_at_inv _ _ _ Hh) as (f3 & f5 & f6 & Hfields).
    destruct (unpack_I7_fields _ _ _ _ _ _ _ _ _ _ Hfields)
      as (He & Hn & Hd & Hs).
    fold (field 12) in He. fold (field 16) in Hn. fold (field 20) in Hd.
    fold (field 28) in Hs.
    pose proof (num_files_nonneg _ _ _ Hh) as Hnum.
    destruct (header_at_bound _ _ _ Hh) as (Hbe & _). unfold u32 in Hbe.
    split; [now rewrite <- Hval|].
    split.
    { unfold len. rewrite (walk_length _ _ _ _ _ _ _ Hwalk).
      unfold num_files, size_of_file_record in *. rewrite <- Hs. lia. }
    intros i r Hnth p.
    pose proof (walk_nth _ _ _ _ _ _ _ _ _ Hwalk Hnth) as Hentry.
    rewrite Z.add_0_l in Hentry.
    destruct (entry_at_inv _ _ _ _ _ _ _ Hentry)
      as (o & no & s & cs & c & u' & Hread & _ & Hdec & Hr & _).
    unfold entry_read, size_of_file_record in Hread.
    assert (Hpos : 0 <= h_entries h + Z.of_nat i * 20) by lia.
    destruct (unpack_I5_fields _ _ _ _ _ _ _ _ _ Hpos Hread)
      as (Ho & Hsz & Hcs & Hc).
    rewrite He in Ho, Hsz, Hcs, Hc. fold p in Ho, Hsz, Hcs, Hc.
    fold (field p) in Ho. fold (field (p + 8)) in Hsz.
    fold (field (p + 12)) in Hcs. fold (field (p + 16)) in Hc.
    unfold name_bytes in Hdec. rewrite Hn in Hdec.
    rewrite Hr. cbn [offset size compressed_size compressed filename].
    rewrite <- Ho, <- Hsz, <- Hcs, <- Hc, <- Hd.
    repeat split; try assumption.
    + intros Hneg ->. discriminate.
    + intros Hneq. destruct (Z.eqb_spec c 0); [contradiction|reflexivity].
  - intros b0 b1 b2 b3. unfold int_from_bytes, from_bytes_big.
    cbn [rev app fold_left]. repeat split; lia.
  - intros Hlen H1 H2. unfold __init__, open, io_read. cbn [content tell].
    rewrite (unpack_magic _ Hlen). fold (detect (firstn 4 src)).
    now rewrite detect_other.
Qed.

Lemma magic_selects_byte_order_witness :
  parse_bundle three_files_le
  = match version_at LittleEndian three_files_le with
    | inl x => inl x
    | inr v =>
        if v >=? 16320 then inl UnsupportedVersionError
        else parse_v1_spec LittleEndian three_files_le
    end
  /\ len three_records
     = int_from_bytes LittleEndian (read_at three_files_le 28 4) / 20
  /\ __init__ (open (b "XXXX")) = inl UnrecognizedFormatError.
Proof.
  pose proof (proj1 (magic_selects_byte_order three_files_le)
                    LittleEndian eq_refl) as (Hreading & _ & _ & Hfields).
  split; [exact Hreading|]. split.
  - assert (Hparse : parse_bundle three_files_le = inr three_records)
      by (vm_compute; reflexivity).
    exact (proj1 (proj2 (Hfields three_records Hparse))).
  - apply (proj2 (proj2 (proj2 (proj2
              (magic_selects_byte_order (b "XXXX"))))));
      [vm_compute; lia|discriminate|discriminate].
Defined.
